(** * WebSockets Broker: session manager and message handlers

    A shallow embedding of [sessionManager.js] (the session table and the
    functions that scan and update it) and of the connection handlers of
    [server.js] ([ws.onmessage], [ws.onclose], [processCommand]).

    The global array [sessions] is threaded explicitly: every function takes
    the table and returns the new one.  A handler returns a [Run]: the table
    it leaves, the texts it passed to [send] in order, and whether it ended
    by throwing a [TypeError]. *)

From stdpp Require Import base list strings numbers pretty.

(** ** Data *)

(** A socket object.  [wsID] is the field [ws.ID] that [server.js] stamps on
    the socket when it is accepted; it is the only field the session manager
    reads.  [sock] stands for the object itself, on which [send] is invoked. *)
Record WebSocket := mkWS { wsID : Z; sock : nat }.

Global Instance WebSocket_eq_dec : EqDecision WebSocket.
Proof. solve_decision. Defined.

(** One element of [sessions].  [targetKey] and [targetWS] hold [null] until a
    partner is linked; [clientWS] is compared with [null] by the source, so it
    is nullable here too.  Identifiers and keys are strings. *)
Record Session := mkSession {
  ID : Z;
  clientID : string;
  targetID : string;
  clientKey : string;
  targetKey : option string;
  clientWS : option WebSocket;
  targetWS : option WebSocket
}.

Global Instance Session_eq_dec : EqDecision Session.
Proof. solve_decision. Defined.

(** What [updateSessionTable] returns: the bare number of its first [return],
    or the object literal of the other ones. *)
Inductive Returned :=
  | RetNumber (n : Z)
  | RetObject (result : Z) (retClientWS : WebSocket) (retTargetWS : option WebSocket).

(** What [getTargetWSFromSession] returns: a number, or the [targetWS] field
    of the record it found (which may be [null]). *)
Inductive Target :=
  | TargetNum (n : Z)
  | TargetWS (w : option WebSocket).

(** A parsed message: [data.type] with the fields the handler reads.  A field
    that is absent reads as [undefined], which is [None]. *)
Inductive Message :=
  | SESSION (client target key : option string)
  | COMMAND (command : string)
  | UNKNOWN.

Record Run := mkRun {
  table : list Session;
  sent : list (WebSocket * string);
  threw : bool
}.

(** ** sessionManager.js *)

(** [addSession]: push a record whose ID is that of the client socket. *)
Definition addSession (cid tid ckey : string) (tkey : option string)
    (cws : WebSocket) (tws : option WebSocket) (sessions : list Session) : list Session :=
  sessions ++ [mkSession (wsID cws) cid tid ckey tkey (Some cws) tws].

(** [updateSessionFromIndex]: assign the seven fields of [sessions[i]].  With
    no element at [i] the first assignment throws, which is [None]. *)
Definition updateSessionFromIndex (i : nat) (sessionID : Z) (cid tid ckey : string)
    (tkey : option string) (cws tws : option WebSocket) (sessions : list Session)
    : option (list Session) :=
  match sessions !! i with
  | Some _ => Some (<[i := mkSession sessionID cid tid ckey tkey cws tws]> sessions)
  | None => None
  end.

Definition clearTarget (r : Session) : Session :=
  mkSession (ID r) (clientID r) (targetID r) (clientKey r) None (clientWS r) None.

(** [updateSessionClearTargetInfo]: every record with this ID loses its
    target key and target socket. *)
Definition updateSessionClearTargetInfo (id : Z) (sessions : list Session) : list Session :=
  (λ r, if decide (ID r = id) then clearTarget r else r) <$> sessions.

(** [session.targetWS != null && session.targetWS.ID == ID] *)
Definition has_target (id : Z) (r : Session) : Prop :=
  match targetWS r with Some w => wsID w = id | None => False end.

Global Instance has_target_dec id r : Decision (has_target id r).
Proof. unfold has_target. destruct (targetWS r); apply _. Defined.

(** [updateSessionClearTargetInfoFromTargetID]: the first record whose target
    socket has this ID is cleared, and its client socket is returned. *)
Definition updateSessionClearTargetInfoFromTargetID (id : Z) (sessions : list Session)
    : list Session * option WebSocket :=
  match list_find (has_target id) sessions with
  | Some (i, r) => (<[i := clearTarget r]> sessions, clientWS r)
  | None => (sessions, None)
  end.

(** [deleteSessionFromID]: splice out the first record with this ID. *)
Definition deleteSessionFromID (id : Z) (sessions : list Session) : list Session :=
  match list_find (λ r, ID r = id) sessions with
  | Some (i, _) => delete i sessions
  | None => sessions
  end.

(** [sessions[i].clientWS != null && sessions[i].clientWS.ID == ws.ID] *)
Definition has_client (id : Z) (r : Session) : Prop :=
  match clientWS r with Some w => wsID w = id | None => False end.

Global Instance has_client_dec id r : Decision (has_client id r).
Proof. unfold has_client. destruct (clientWS r); apply _. Defined.

(** [getTargetWSFromSession]: the first record of this client decides. *)
Definition getTargetWSFromSession (ws : WebSocket) (sessions : list Session) : Target :=
  match list_find (has_client (wsID ws)) sessions with
  | Some (_, r) =>
      if decide (Some (clientKey r) = targetKey r) then TargetWS (targetWS r)
      else TargetNum (-2)
  | None => TargetNum (-1)
  end.

(** *** The scan of [updateSessionTable] *)

(** [sessions[i].clientID == clientID && sessions[i].targetID == targetID] *)
Definition fwd (cid tid : string) (r : Session) : Prop :=
  clientID r = cid ∧ targetID r = tid.

(** [sessions[i].clientID == targetID && sessions[i].targetID == clientID] *)
Definition rev (cid tid : string) (r : Session) : Prop :=
  clientID r = tid ∧ targetID r = cid.

Global Instance fwd_dec cid tid r : Decision (fwd cid tid r).
Proof. unfold fwd. apply _. Defined.

Global Instance rev_dec cid tid r : Decision (rev cid tid r).
Proof. unfold rev. apply _. Defined.

(** The socket already owns this record under another client/target pair. *)
Definition stale (ws : WebSocket) (cid tid : string) (r : Session) : Prop :=
  ID r = wsID ws ∧ (clientID r ≠ cid ∨ targetID r ≠ tid).

Global Instance stale_dec ws cid tid r : Decision (stale ws cid tid r).
Proof. unfold stale. apply _. Defined.

(** The [if ... else if ...] that sets [clientRecordIndex] and
    [targetRecordIndex]; [None] is the initial [-1]. *)
Definition mark (cid tid : string) (r : Session) (i : nat)
    (idx : option nat * option nat) : option nat * option nat :=
  if decide (fwd cid tid r) then (Some i, idx.2)
  else if decide (rev cid tid r) then (idx.1, Some i)
  else idx.

(** The cleanup inside the loop: the partner of the stale record [r] is
    cleared when [r.targetWS] is not [null], then [sessions.splice(i,1)]. *)
Definition spliceStale (i : nat) (r : Session) (sessions : list Session) : list Session :=
  delete i
    match targetWS r with
    | Some tw => updateSessionClearTargetInfo (wsID tw) sessions
    | None => sessions
    end.

(** The [for] loop, from index [i] on.  Each round consumes one unit of
    [fuel]; [updateSessionTable] starts it with the length of the table, which
    [locate_fuel] below shows to be enough. *)
Fixpoint locate (fuel : nat) (ws : WebSocket) (cid tid : string)
    (sessions : list Session) (i : nat) (idx : option nat * option nat)
    : list Session * (option nat * option nat) :=
  match fuel with
  | 0 => (sessions, idx)
  | S fuel' =>
      match sessions !! i with
      | None => (sessions, idx)
      | Some r =>
          if decide (stale ws cid tid r) then
            let spliced := spliceStale i r sessions in
            match spliced !! i with
            | None => (spliced, idx)
            | Some r' => locate fuel' ws cid tid spliced (S i) (mark cid tid r' i idx)
            end
          else locate fuel' ws cid tid sessions (S i) (mark cid tid r i idx)
      end
  end.

(** [updateSessionTable].  The second component is [None] when the function
    throws (a read of [sessions[j]] with nothing at [j]). *)
Definition updateSessionTable (ws : WebSocket) (clientID targetID key : option string)
    (sessions : list Session) : list Session * option Returned :=
  match clientID, targetID, key with
  | Some cid, Some tid, Some k =>
      let '(s1, (clientRecordIndex, targetRecordIndex)) :=
        locate (length sessions) ws cid tid sessions 0 (None, None) in
      match clientRecordIndex, targetRecordIndex with
      | None, None =>
          (addSession cid tid k None ws None s1, Some (RetObject (-1) ws None))
      | Some ci, None =>
          match updateSessionFromIndex ci (wsID ws) cid tid k None (Some ws) None s1 with
          | Some s2 => (s2, Some (RetObject (-1) ws None))
          | None => (s1, None)
          end
      | None, Some ti =>
          match s1 !! ti with
          | None => (s1, None)
          | Some rt =>
              match updateSessionFromIndex ti (ID rt) tid cid (clientKey rt) (Some k)
                      (clientWS rt) (Some ws) s1 with
              | None => (s1, None)
              | Some s2 =>
                  match s2 !! ti with
                  | None => (s2, None)
                  | Some rt' =>
                      let s3 := addSession cid tid k (Some (clientKey rt')) ws (clientWS rt') s2 in
                      match s3 !! ti with
                      | None => (s3, None)
                      | Some rt'' =>
                          if decide (k = clientKey rt'')
                          then (s3, Some (RetObject 0 ws (clientWS rt'')))
                          else (s3, Some (RetObject (-2) ws (clientWS rt'')))
                      end
                  end
              end
          end
      | Some ci, Some ti =>
          match s1 !! ti with
          | None => (s1, None)
          | Some rt =>
              match updateSessionFromIndex ci (wsID ws) cid tid k (Some (clientKey rt))
                      (Some ws) (clientWS rt) s1 with
              | None => (s1, None)
              | Some s2 =>
                  match s2 !! ti with
                  | None => (s2, None)
                  | Some rt' =>
                      match updateSessionFromIndex ti (ID rt') tid cid (clientKey rt') (Some k)
                              (clientWS rt') (Some ws) s2 with
                      | None => (s2, None)
                      | Some s3 =>
                          match s3 !! ti with
                          | None => (s3, None)
                          | Some rt'' =>
                              if decide (k = clientKey rt'')
                              then (s3, Some (RetObject 0 ws (clientWS rt'')))
                              else (s3, Some (RetObject (-2) ws (clientWS rt'')))
                          end
                      end
                  end
              end
          end
      end
  | _, _, _ => (sessions, Some (RetNumber (-100)))
  end.

(** ** server.js *)

(** [res.result]: [undefined] ([None]) when [res] is a number. *)
Definition result_of (res : Returned) : option Z :=
  match res with
  | RetNumber _ => None
  | RetObject n _ _ => Some n
  end.

(** [res.targetWS]: [undefined] or [null] is [None]. *)
Definition targetWS_of (res : Returned) : option WebSocket :=
  match res with
  | RetNumber _ => None
  | RetObject _ _ t => t
  end.

(** The text that string concatenation gives for [res.result]. *)
Definition to_text (v : option Z) : string :=
  match v with
  | None => "undefined"
  | Some n => pretty n
  end.

(** [processCommand]: a number means no valid session; anything else is
    taken to be a socket, and [send] on [null] throws. *)
Definition processCommand (ws : WebSocket) (command : string) (sessions : list Session) : Run :=
  match getTargetWSFromSession ws sessions with
  | TargetNum _ => mkRun sessions [] false
  | TargetWS (Some wsTarget) => mkRun sessions [(wsTarget, command)] false
  | TargetWS None => mkRun sessions [] true
  end.

(** [ws.onmessage], after the message has been parsed into an object. *)
Definition onmessage (ws : WebSocket) (data : Message) (sessions : list Session) : Run :=
  match data with
  | SESSION client target key =>
      match updateSessionTable ws client target key sessions with
      | (s', None) => mkRun s' [] true
      | (s', Some res) =>
          if decide (result_of res = Some 0%Z) then
            match targetWS_of res with
            | Some tw => mkRun s' [(ws, "SESSION_UP"); (tw, "SESSION_UP")] false
            | None => mkRun s' [(ws, "SESSION_UP")] true
            end
          else
            let first := (ws, "SESSION_NOT_UP: " +:+ to_text (result_of res)) in
            if decide (result_of res = Some (-2)%Z) then
              match targetWS_of res with
              | Some tw => mkRun s' [first; (tw, "SESSION_NOT_UP: -2")] false
              | None => mkRun s' [first] true
              end
            else mkRun s' [first] false
      end
  | COMMAND command => processCommand ws command sessions
  | UNKNOWN => mkRun sessions [] false
  end.

(** [ws.onclose] *)
Definition onclose (ws : WebSocket) (sessions : list Session) : Run :=
  let '(s1, partnerWS) := updateSessionClearTargetInfoFromTargetID (wsID ws) sessions in
  let notice :=
    match partnerWS with
    | Some p => [(p, "SESSION_NOT_UP: -1")]
    | None => []
    end in
  mkRun (deleteSessionFromID (wsID ws) s1) notice false.

(** ** The broker as a transition system *)

Inductive Event :=
  | Receive (ws : WebSocket) (data : Message)
  | Close (ws : WebSocket).

Definition handle (e : Event) (sessions : list Session) : Run :=
  match e with
  | Receive ws data => onmessage ws data sessions
  | Close ws => onclose ws sessions
  end.

(** The tables that some sequence of events produces from the empty one. *)
Inductive reachable : list Session → Prop :=
  | reachable_nil : reachable []
  | reachable_step s e : reachable s → reachable (table (handle e s)).

(** Run a list of events, keeping the sends of the last one. *)
Definition run_from (sessions : list Session) (es : list Event) : Run :=
  foldl (λ r e, handle e (table r)) (mkRun sessions [] false) es.

(** * Vocabulary of the properties *)

(** The declared pair of a record. *)
Definition pairOf (r : Session) : string * string := (clientID r, targetID r).

(** What the two indices of the scan mean once the records below [n] have
    been looked at. *)
Definition idx_ok (cid tid : string) (s : list Session) (n : nat)
    (idx : option nat * option nat) : Prop :=
  match idx.1 with
  | Some j => j < n ∧ ∃ r, s !! j = Some r ∧ fwd cid tid r
  | None => ∀ j r, j < n → s !! j = Some r → ¬ fwd cid tid r
  end ∧
  match idx.2 with
  | Some j => j < n ∧ ∃ r, s !! j = Some r ∧ rev cid tid r ∧ ¬ fwd cid tid r
  | None => ∀ j r, j < n → s !! j = Some r → fwd cid tid r ∨ ¬ rev cid tid r
  end.

(** What they mean when the scan is over. *)
Definition found (cid tid : string) (s : list Session)
    (idx : option nat * option nat) : Prop :=
  match idx.1 with
  | Some j => ∃ r, s !! j = Some r ∧ fwd cid tid r
  | None => ∀ r, r ∈ s → ¬ fwd cid tid r
  end ∧
  match idx.2 with
  | Some j => ∃ r, s !! j = Some r ∧ rev cid tid r ∧ ¬ fwd cid tid r
  | None => ∀ r, r ∈ s → fwd cid tid r ∨ ¬ rev cid tid r
  end.

(** The table that the scan leaves when no two records share an ID: the
    first stale record of the socket, if any, is cleaned up. *)
Definition cleanup (ws : WebSocket) (cid tid : string) (s : list Session) : list Session :=
  match list_find (stale ws cid tid) s with
  | Some (j, r) => spliceStale j r s
  | None => s
  end.

(** A record as the session manager writes it: its client socket is the
    owner, and the target key and target socket are present together. *)
Definition record_ok (r : Session) : Prop :=
  has_client (ID r) r ∧ (targetKey r = None ↔ targetWS r = None).

(** Links are mutual: the target socket of a record owns the record of the
    reversed pair, and that record points back. *)
Definition linked (s : list Session) : Prop :=
  ∀ r w, r ∈ s → targetWS r = Some w →
    clientID r ≠ targetID r ∧
    ∃ r', r' ∈ s ∧ ID r' = wsID w ∧ rev (clientID r) (targetID r) r' ∧
          has_target (ID r) r'.

(** The invariant of the session table. *)
Record WF (s : list Session) : Prop := mkWF {
  wf_ids : NoDup (ID <$> s);
  wf_pairs : NoDup (pairOf <$> s);
  wf_records : Forall record_ok s;
  wf_linked : linked s
}.

(** What the cleanup of the stale record [r] does to another record [y]. *)
Definition clearFor (r y : Session) : Session :=
  match targetWS r with
  | Some tw => if decide (ID y = wsID tw) then clearTarget y else y
  | None => y
  end.

(** The record a declaration writes for its socket. *)
Definition own (ws : WebSocket) (cid tid k : string) (tk : option string)
    (tw : option WebSocket) : Session :=
  mkSession (wsID ws) cid tid k tk (Some ws) tw.

(** The record of the reversed pair once it points at the declaring socket. *)
Definition relink (k : string) (ws : WebSocket) (rt : Session) : Session :=
  mkSession (ID rt) (clientID rt) (targetID rt) (clientKey rt) (Some k)
    (clientWS rt) (Some ws).

(** The four cases of [updateSessionTable] after the scan has left the
    table [s1] and the indices [idx]. *)
Definition settle (ws : WebSocket) (cid tid k : string) (s1 : list Session)
    (idx : option nat * option nat) : list Session * option Returned :=
  match idx with
  | (None, None) =>
      (s1 ++ [own ws cid tid k None None], Some (RetObject (-1) ws None))
  | (Some ci, None) =>
      (<[ci := own ws cid tid k None None]> s1, Some (RetObject (-1) ws None))
  | (None, Some ti) =>
      match s1 !! ti with
      | Some rt =>
          (<[ti := relink k ws rt]> s1
             ++ [own ws cid tid k (Some (clientKey rt)) (clientWS rt)],
           Some (RetObject (if decide (k = clientKey rt) then 0 else -2) ws (clientWS rt)))
      | None => (s1, None)
      end
  | (Some ci, Some ti) =>
      match s1 !! ti with
      | Some rt =>
          (<[ti := relink k ws rt]>
             (<[ci := own ws cid tid k (Some (clientKey rt)) (clientWS rt)]> s1),
           Some (RetObject (if decide (k = clientKey rt) then 0 else -2) ws (clientWS rt)))
      | None => (s1, None)
      end
  end.

(** The record of the reversed pair, if the table has one. *)
Definition partner (cid tid : string) (s : list Session) : option Session :=
  snd <$> list_find (λ r, rev cid tid r ∧ ¬ fwd cid tid r) s.

(** The records of the table after a declaration, read off the table the
    scan has left: the record of the declaring socket, the relinked record
    of the reversed pair, and every record of another pair. *)
Definition declared (ws : WebSocket) (cid tid k : string) (s1 : list Session)
    (x : Session) : Prop :=
  x = own ws cid tid k (clientKey <$> partner cid tid s1) (partner cid tid s1 ≫= clientWS)
  ∨ (∃ rt, partner cid tid s1 = Some rt ∧ x = relink k ws rt)
  ∨ (x ∈ s1 ∧ ¬ fwd cid tid x ∧ ¬ rev cid tid x).

(** The value [updateSessionTable] returns, read off the same table. *)
Definition verdict (ws : WebSocket) (cid tid k : string) (s1 : list Session) : Returned :=
  match partner cid tid s1 with
  | Some rt => RetObject (if decide (k = clientKey rt) then 0 else -2) ws (clientWS rt)
  | None => RetObject (-1) ws None
  end.

(** What a disconnect of the socket with this ID does to a record that stays
    in the table. *)
Definition dropLink (id : Z) (y : Session) : Session :=
  if decide (has_target id y) then clearTarget y else y.

(** The texts a declaration makes the handler send, read off the table the
    scan has left. *)
Definition notices (ws : WebSocket) (cid tid k : string) (s1 : list Session)
    : list (WebSocket * string) :=
  match partner cid tid s1 with
  | None => [(ws, "SESSION_NOT_UP: -1")]
  | Some rt =>
      let text := if decide (k = clientKey rt) then "SESSION_UP" else "SESSION_NOT_UP: -2" in
      (ws, text) :: match clientWS rt with Some w => [(w, text)] | None => [] end
  end.

(** A declaration with its three fields present. *)
Definition declaration (cid tid k : string) : Message :=
  SESSION (Some cid) (Some tid) (Some k).

(** * The statements of the properties *)

(** Two sockets whose records point at each other under one key: [A] has
    declared [(a,b,k)], [B] has declared [(b,a,k)], and both were confirmed. *)
Definition confirmed_pair (s : list Session) (A B : WebSocket) (a b k : string) : Prop :=
  mkSession (wsID A) a b k (Some k) (Some A) (Some B) ∈ s ∧
  mkSession (wsID B) b a k (Some k) (Some B) (Some A) ∈ s.

(** The socket has no record in the table. *)
Definition no_record (s : list Session) (A : WebSocket) : Prop :=
  ∀ r, r ∈ s → ID r ≠ wsID A.

(** The record that stands for a socket when it relays: the first one whose
    client socket carries its ID. *)
Definition recordOf (ws : WebSocket) (s : list Session) : option Session :=
  snd <$> list_find (has_client (wsID ws)) s.

(** [A] declares [(a,b,k1)], then [B] declares [(b,a,k2)]. *)
Definition pairing (s : list Session) (A B : WebSocket) (a b k1 k2 : string) : Run :=
  onmessage B (declaration b a k2) (table (onmessage A (declaration a b k1) s)).

(** Both sockets are told the session is up, and a command from either one
    is sent on the other. *)
Definition symmetry (s : list Session) (A B : WebSocket) (a b k command : string) : Prop :=
  let r := pairing s A B a b k k in
  sent r = [(B, "SESSION_UP"); (A, "SESSION_UP")] ∧
  sent (onmessage A (COMMAND command) (table r)) = [(B, command)] ∧
  sent (onmessage B (COMMAND command) (table r)) = [(A, command)].

(** Both sockets are told of the mismatch, and a command from either one
    is sent nowhere. *)
Definition mismatch (s : list Session) (A B : WebSocket) (a b k1 k2 command : string) : Prop :=
  let r := pairing s A B a b k1 k2 in
  sent r = [(B, "SESSION_NOT_UP: -2"); (A, "SESSION_NOT_UP: -2")] ∧
  sent (onmessage A (COMMAND command) (table r)) = [] ∧
  sent (onmessage B (COMMAND command) (table r)) = [].

(** The scan as [updateSessionTable] starts it. *)
Definition scan (ws : WebSocket) (cid tid : string) (s : list Session)
    : list Session * (option nat * option nat) :=
  locate (length s) ws cid tid s 0 (None, None).

(** [sessions[clientRecordIndex]] when the scan is over: the forward record
    of a declaration, if there is one. *)
Definition forward_record (ws : WebSocket) (cid tid : string) (s : list Session)
    : option Session :=
  match scan ws cid tid s with
  | (s1, (Some ci, _)) => s1 !! ci
  | (_, (None, _)) => None
  end.

(** Sample sockets and events. *)
Definition wsA : WebSocket := mkWS 1 0.
Definition wsB : WebSocket := mkWS 2 1.
Definition wsD : WebSocket := mkWS 3 2.

Definition declare (ws : WebSocket) (cid tid k : string) : Event :=
  Receive ws (declaration cid tid k).

(** [wsA] and [wsB] are paired on [("a","b")] with key ["k"]. *)
Definition paired : list Session :=
  table (run_from [] [declare wsA "a" "b" "k"; declare wsB "b" "a" "k"]).

(** [wsA] alone has declared [("a","b")]. *)
Definition pending : list Session :=
  table (run_from [] [declare wsA "a" "b" "k"]).

(** * The debug view of the table *)

(** The first line of [getSessionTable]: the opening tag and the header row. *)
Definition tableHeader : string :=
  "<table border=1><tr><td>ID</td><td>clientID</td><td>targetID</td><td>client key</td><td>target key</td><td>client WS</td><td>target WS</td></tr>".

(** [item.targetKey] as string concatenation prints it. *)
Definition text_of_key (k : option string) : string :=
  match k with
  | Some k => k
  | None => "null"
  end.

(** The callback of [sessions.forEach] in [getSessionTable]: seven cells are
    appended to [res].  [item.clientWS.ID] is read without a test, so a record
    whose [clientWS] is [null] makes the callback throw, which is [None]. *)
Definition appendRow (res : string) (item : Session) : option string :=
  let targetWSID :=
    match targetWS item with
    | None => "null"
    | Some tw => pretty (wsID tw)
    end in
  let res := res +:+ ("<tr><td>" +:+ pretty (ID item) +:+ "</td>") in
  let res := res +:+ ("<td>" +:+ clientID item +:+ "</td>") in
  let res := res +:+ ("<td>" +:+ targetID item +:+ "</td>") in
  let res := res +:+ ("<td>" +:+ clientKey item +:+ "</td>") in
  let res := res +:+ ("<td>" +:+ text_of_key (targetKey item) +:+ "</td>") in
  match clientWS item with
  | None => None
  | Some cw =>
      let res := res +:+ ("<td>" +:+ pretty (wsID cw) +:+ "</td>") in
      Some (res +:+ ("<td>" +:+ targetWSID +:+ "</td></tr>"))
  end.

(** [getSessionTable]: the header, one row per record in table order, the
    closing tag. *)
Definition getSessionTable (sessions : list Session) : option string :=
  match foldl (λ acc item, acc ≫= λ res, appendRow res item) (Some tableHeader) sessions with
  | Some res => Some (res +:+ "</table>")
  | None => None
  end.

(** The row of a record whose client socket is its owner: the first and the
    sixth cell show the same number. *)
Definition rowText (r : Session) : string :=
  "<tr><td>" +:+ pretty (ID r) +:+ "</td>"
  +:+ "<td>" +:+ clientID r +:+ "</td>"
  +:+ "<td>" +:+ targetID r +:+ "</td>"
  +:+ "<td>" +:+ clientKey r +:+ "</td>"
  +:+ "<td>" +:+ text_of_key (targetKey r) +:+ "</td>"
  +:+ "<td>" +:+ pretty (ID r) +:+ "</td>"
  +:+ "<td>" +:+ match targetWS r with None => "null" | Some tw => pretty (wsID tw) end
  +:+ "</td></tr>".

(** * Further vocabulary *)

(** The two sides of a link agree: the record the target socket owns holds
    this record's key as its target key, and that socket as its client. *)
Definition keys_agree (s : list Session) : Prop :=
  ∀ r w, r ∈ s → targetWS r = Some w →
    ∃ r', r' ∈ s ∧ ID r' = wsID w ∧ targetKey r' = Some (clientKey r) ∧
          clientWS r' = Some w.

(** * Lists without duplicate keys *)

(** The table is an array, but no two of its records share an ID, nor a
    declared pair: membership after a splice or an assignment at an index
    can then be told from the key alone. *)
Section keyed.
Context {A K : Type} (f : A → K).
Implicit Types l : list A.

Lemma keyed_lookup l i j x y :
  NoDup (f <$> l) → l !! i = Some x → l !! j = Some y → f x = f y → i = j.
Proof.
  intros Hnd Hi Hj Hxy. eapply (NoDup_lookup _ i j (f x) Hnd).
  - by rewrite list_lookup_fmap, Hi.
  - by rewrite list_lookup_fmap, Hj, Hxy.
Qed.

Lemma keyed_elem l x y :
  NoDup (f <$> l) → x ∈ l → y ∈ l → f x = f y → x = y.
Proof.
  intros Hnd [i Hi]%list_elem_of_lookup [j Hj]%list_elem_of_lookup Hxy.
  assert (i = j) as -> by eauto using keyed_lookup. congruence.
Qed.

Lemma keyed_delete l i x y :
  NoDup (f <$> l) → l !! i = Some x →
  y ∈ delete i l ↔ y ∈ l ∧ f y ≠ f x.
Proof.
  intros Hnd Hi. rewrite !list_elem_of_lookup. split.
  - intros [j Hj]. rewrite list_lookup_delete in Hj.
    case_decide as Hlt.
    + split; [eauto|]. intros Hxy.
      assert (j = i) by eauto using keyed_lookup. lia.
    + split; [eauto|]. intros Hxy.
      assert (S j = i) by eauto using keyed_lookup. lia.
  - intros [[j Hj] Hne]. destruct (decide (j < i)) as [Hlt|Hge].
    + exists j. by rewrite list_lookup_delete_lt.
    + destruct (decide (j = i)) as [->|]; [congruence|].
      exists (pred j). rewrite list_lookup_delete_ge by lia.
      by replace (S (pred j)) with j by lia.
Qed.

Lemma keyed_insert l i x z y :
  NoDup (f <$> l) → l !! i = Some x →
  y ∈ <[i:=z]> l ↔ y = z ∨ (y ∈ l ∧ f y ≠ f x).
Proof.
  intros Hnd Hi. pose proof (lookup_lt_Some _ _ _ Hi) as Hlt.
  rewrite !list_elem_of_lookup. split.
  - intros [j Hj]. destruct (decide (i = j)) as [->|Hne].
    + rewrite list_lookup_insert_eq in Hj by done. left. congruence.
    + rewrite list_lookup_insert_ne in Hj by done. right.
      split; [eauto|]. intros Hxy. apply Hne. eauto using keyed_lookup.
  - intros [->|[[j Hj] Hne]].
    + exists i. by rewrite list_lookup_insert_eq.
    + exists j. rewrite list_lookup_insert_ne; [done|]. congruence.
Qed.

Lemma keyed_insert_NoDup l i x z :
  NoDup (f <$> l) → l !! i = Some x →
  (∀ y, y ∈ l → f y = f z → f y = f x) →
  NoDup (f <$> <[i:=z]> l).
Proof.
  intros Hnd Hi Hz. rewrite list_fmap_insert. apply NoDup_alt.
  intros j1 j2 k Hj1 Hj2.
  assert (Hcase : ∀ j, <[i:=f z]> (f <$> l) !! j = Some k →
            (j = i ∧ k = f z) ∨ (j ≠ i ∧ (f <$> l) !! j = Some k)).
  { intros j Hj. destruct (decide (i = j)) as [->|Hne].
    - rewrite list_lookup_insert_eq in Hj; [left; split; congruence|].
      rewrite length_fmap. by eapply lookup_lt_Some.
    - rewrite list_lookup_insert_ne in Hj by done. right. done. }
  assert (Hold : ∀ j, j ≠ i → (f <$> l) !! j = Some (f z) → False).
  { intros j Hne Hj. rewrite list_lookup_fmap in Hj.
    destruct (l !! j) as [y|] eqn:Hy; simplify_eq/=.
    apply Hne. eapply keyed_lookup; eauto.
    apply Hz; [|done]. eapply list_elem_of_lookup_2; eauto. }
  destruct (Hcase _ Hj1) as [[-> ->]|[? Hk1]], (Hcase _ Hj2) as [[-> Hk]|[? Hk2]];
    try done.
  - exfalso. eauto.
  - subst. exfalso. eauto.
  - by eapply NoDup_lookup.
Qed.

Lemma keyed_snoc_NoDup l z :
  NoDup (f <$> l) → (∀ y, y ∈ l → f y ≠ f z) → NoDup (f <$> l ++ [z]).
Proof.
  intros Hnd Hz. rewrite fmap_app. apply NoDup_app. split_and!; [done| |].
  - intros k (y & Hk & Hy)%list_elem_of_fmap Hin. simpl in Hin.
    apply list_elem_of_singleton in Hin. eapply Hz; [done|]. congruence.
  - apply NoDup_singleton.
Qed.
End keyed.

(** * Properties *)

(** ** The scan terminates within its fuel *)

Lemma length_updateSessionClearTargetInfo id s :
  length (updateSessionClearTargetInfo id s) = length s.
Proof. unfold updateSessionClearTargetInfo. by rewrite length_fmap. Qed.

Lemma length_spliceStale i r s :
  i < length s → S (length (spliceStale i r s)) = length s.
Proof.
  intros Hi. unfold spliceStale. rewrite length_delete.
  - destruct (targetWS r); rewrite ?length_updateSessionClearTargetInfo; lia.
  - apply lookup_lt_is_Some.
    destruct (targetWS r); rewrite ?length_updateSessionClearTargetInfo; lia.
Qed.

(** Once [fuel] covers the rest of the table, more fuel changes nothing: the
    loop has left through its test or its [break]. *)
Lemma locate_fuel ws cid tid fuel extra s i idx :
  length s ≤ i + fuel →
  locate (fuel + extra) ws cid tid s i idx = locate fuel ws cid tid s i idx.
Proof.
  revert s i idx. induction fuel as [|fuel IH]; intros s i idx Hlen.
  - simpl. destruct extra as [|extra]; [done|]. simpl.
    rewrite lookup_ge_None_2; [done|lia].
  - simpl. destruct (s !! i) as [r|] eqn:Hr; [|done].
    pose proof (lookup_lt_Some _ _ _ Hr) as Hi.
    pose proof (length_spliceStale i r s Hi) as Hsp.
    case_decide.
    + destruct (spliceStale i r s !! i); [|done]. apply IH. lia.
    + apply IH. lia.
Qed.

(** ** What the scan finds *)

Lemma fwd_pairOf cid tid r r' : pairOf r = pairOf r' → fwd cid tid r → fwd cid tid r'.
Proof. unfold pairOf, fwd. intros [= -> ->]. done. Qed.

Lemma rev_pairOf cid tid r r' : pairOf r = pairOf r' → rev cid tid r → rev cid tid r'.
Proof. unfold pairOf, rev. intros [= -> ->]. done. Qed.

Lemma mark_ok cid tid s i idx r :
  idx_ok cid tid s i idx → s !! i = Some r →
  idx_ok cid tid s (S i) (mark cid tid r i idx).
Proof.
  destruct idx as [ci ti]. unfold idx_ok, mark. simpl. intros [Hc Ht] Hr.
  assert (Hlt : ∀ j, j < S i → j < i ∨ j = i) by lia.
  repeat case_decide; simpl; split.
  - split; [lia|]. eauto.
  - destruct ti as [j|].
    + destruct Ht as [? ?]. split; [lia|done].
    + intros j r' [Hj| ->]%Hlt Hj'; [eauto|]. left. congruence.
  - destruct ci as [j|].
    + destruct Hc as [? ?]. split; [lia|done].
    + intros j r' [Hj| ->]%Hlt Hj'; [eauto|]. congruence.
  - split; [lia|]. eauto.
  - destruct ci as [j|].
    + destruct Hc as [? ?]. split; [lia|done].
    + intros j r' [Hj| ->]%Hlt Hj'; [eauto|]. congruence.
  - destruct ti as [j|].
    + destruct Ht as [? ?]. split; [lia|done].
    + intros j r' [Hj| ->]%Hlt Hj'; [eauto|]. right. congruence.
Qed.

Lemma idx_ok_agree cid tid s s' i idx :
  (∀ j, j < i → pairOf <$> (s' !! j) = pairOf <$> (s !! j)) →
  idx_ok cid tid s i idx → idx_ok cid tid s' i idx.
Proof.
  intros Hag. destruct idx as [ci ti]. unfold idx_ok. simpl.
  assert (Hto : ∀ j r', j < i → s' !! j = Some r' →
            ∃ r, s !! j = Some r ∧ pairOf r' = pairOf r).
  { intros j r' Hj Hr'. specialize (Hag j Hj). rewrite Hr' in Hag.
    destruct (s !! j) as [r|]; [|done]. exists r. split; [done|]. unfold pairOf in *; simpl in *; congruence. }
  assert (Hfrom : ∀ j r, j < i → s !! j = Some r →
            ∃ r', s' !! j = Some r' ∧ pairOf r = pairOf r').
  { intros j r Hj Hr. specialize (Hag j Hj). rewrite Hr in Hag.
    destruct (s' !! j) as [r'|]; [|done]. exists r'. split; [done|]. unfold pairOf in *; simpl in *; congruence. }
  intros [Hc Ht]. split.
  - destruct ci as [j|].
    + destruct Hc as (Hj & r & Hr & Hf). split; [done|].
      destruct (Hfrom j r Hj Hr) as (r' & ? & ?). eauto using fwd_pairOf.
    + intros j r' Hj Hr' Hf. destruct (Hto j r' Hj Hr') as (r & ? & ?).
      eapply Hc; eauto using fwd_pairOf.
  - destruct ti as [j|].
    + destruct Ht as (Hj & r & Hr & Hf & Hn). split; [done|].
      destruct (Hfrom j r Hj Hr) as (r' & ? & Hp).
      exists r'. split_and!; eauto using rev_pairOf.
      intros ?. apply Hn. eauto using fwd_pairOf.
    + intros j r' Hj Hr'. destruct (Hto j r' Hj Hr') as (r & ? & Hp).
      destruct (Ht j r Hj) as [?|Hn]; [done|left|right].
      * symmetry in Hp. eauto using fwd_pairOf.
      * intros ?. apply Hn. eauto using rev_pairOf.
Qed.

Lemma pairOf_clear id r :
  pairOf (if decide (ID r = id) then clearTarget r else r) = pairOf r.
Proof. by case_decide. Qed.

Lemma ID_clear id r :
  ID (if decide (ID r = id) then clearTarget r else r) = ID r.
Proof. by case_decide. Qed.

Lemma spliceStale_below i r s j :
  j < i → pairOf <$> (spliceStale i r s !! j) = pairOf <$> (s !! j).
Proof.
  intros Hj. unfold spliceStale. rewrite list_lookup_delete_lt; [|done].
  destruct (targetWS r); [|done].
  unfold updateSessionClearTargetInfo. rewrite list_lookup_fmap.
  destruct (s !! j); simpl; [|done]. by rewrite pairOf_clear.
Qed.

Lemma idx_ok_found cid tid s n idx :
  length s ≤ n → idx_ok cid tid s n idx → found cid tid s idx.
Proof.
  intros Hn. destruct idx as [ci ti]. unfold idx_ok, found. simpl.
  intros [Hc Ht]. split.
  - destruct ci as [j|]; [by destruct Hc|].
    intros r (j & Hj)%list_elem_of_lookup.
    eapply Hc; [|done]. apply lookup_lt_Some in Hj. lia.
  - destruct ti as [j|]; [by destruct Ht|].
    intros r (j & Hj)%list_elem_of_lookup.
    eapply Ht; [|done]. apply lookup_lt_Some in Hj. lia.
Qed.

(** The indices the scan returns designate, in the table it returns, a
    record of the declared pair and a record of the reversed pair; an index
    left at [-1] means the table has no such record. *)
Lemma locate_found ws cid tid fuel s i idx s' idx' :
  length s ≤ i + fuel → idx_ok cid tid s i idx →
  locate fuel ws cid tid s i idx = (s', idx') →
  found cid tid s' idx'.
Proof.
  revert s i idx. induction fuel as [|fuel IH]; intros s i idx Hlen Hok; simpl.
  - intros [= <- <-]. eapply idx_ok_found; [|done]. lia.
  - destruct (s !! i) as [r|] eqn:Hr.
    2:{ intros [= <- <-]. apply lookup_ge_None_1 in Hr. by eapply idx_ok_found. }
    pose proof (lookup_lt_Some _ _ _ Hr) as Hi.
    pose proof (length_spliceStale i r s Hi) as Hsp.
    assert (idx_ok cid tid (spliceStale i r s) i idx) as Hok'.
    { eapply idx_ok_agree; [|done]. intros j Hj. by apply spliceStale_below. }
    case_decide.
    + destruct (spliceStale i r s !! i) as [r'|] eqn:Hr'.
      * apply IH; [lia|]. by apply mark_ok.
      * intros [= <- <-]. apply lookup_ge_None_1 in Hr'. by eapply idx_ok_found.
    + apply IH; [lia|]. by apply mark_ok.
Qed.

Lemma idx_ok_start cid tid s : idx_ok cid tid s 0 (None, None).
Proof. split; simpl; intros; lia. Qed.

(** ** The table the scan leaves *)

Lemma spliceStale_clearFor i r s : spliceStale i r s = delete i (clearFor r <$> s).
Proof.
  unfold spliceStale, clearFor, updateSessionClearTargetInfo.
  destruct (targetWS r); [done|]. by rewrite list_fmap_id.
Qed.

Lemma ID_clearFor r y : ID (clearFor r y) = ID y.
Proof. unfold clearFor. destruct (targetWS r); [apply ID_clear|done]. Qed.

Lemma pairOf_clearFor r y : pairOf (clearFor r y) = pairOf y.
Proof. unfold clearFor. destruct (targetWS r); [apply pairOf_clear|done]. Qed.

Lemma spliceStale_IDs i r s : ID <$> spliceStale i r s = delete i (ID <$> s).
Proof.
  rewrite spliceStale_clearFor, list_fmap_delete, <- list_fmap_compose.
  f_equal. apply list_fmap_ext. intros ? y _. apply ID_clearFor.
Qed.

Lemma spliceStale_pairs i r s : pairOf <$> spliceStale i r s = delete i (pairOf <$> s).
Proof.
  rewrite spliceStale_clearFor, list_fmap_delete, <- list_fmap_compose.
  f_equal. apply list_fmap_ext. intros ? y _. apply pairOf_clearFor.
Qed.

(** With no stale record left from [i] on, the scan only reads. *)
Lemma locate_no_stale ws cid tid fuel s i idx :
  (∀ j r, i ≤ j → s !! j = Some r → ¬ stale ws cid tid r) →
  (locate fuel ws cid tid s i idx).1 = s.
Proof.
  revert i idx. induction fuel as [|fuel IH]; intros i idx Hns; simpl; [done|].
  destruct (s !! i) as [r|] eqn:Hr; [|done].
  case_decide as Hst; [exfalso; eapply Hns; eauto|].
  apply IH. intros j r' Hj. apply Hns. lia.
Qed.

(** When no two records share an ID the scan splices at most once: the
    record that follows the spliced one, which the loop does not test, belongs
    to another socket. *)
Lemma locate_table ws cid tid fuel s i idx :
  NoDup (ID <$> s) → length s ≤ i + fuel →
  (∀ j r, j < i → s !! j = Some r → ¬ stale ws cid tid r) →
  (locate fuel ws cid tid s i idx).1 = cleanup ws cid tid s.
Proof.
  intros Hnd. revert i idx. induction fuel as [|fuel IH]; intros i idx Hlen Hpre.
  - simpl. unfold cleanup.
    rewrite (proj2 (list_find_None (stale ws cid tid) s)); [done|].
    apply Forall_lookup. intros j r Hj. eapply Hpre; [|done].
    apply lookup_lt_Some in Hj. lia.
  - simpl. destruct (s !! i) as [r|] eqn:Hr.
    2:{ simpl. unfold cleanup.
        rewrite (proj2 (list_find_None (stale ws cid tid) s)); [done|].
        apply Forall_lookup. intros j r Hj. eapply Hpre; [|done].
        apply lookup_lt_Some in Hj. apply lookup_ge_None_1 in Hr. lia. }
    case_decide as Hst.
    + assert (cleanup ws cid tid s = spliceStale i r s) as ->.
      { unfold cleanup.
        rewrite (proj2 (list_find_Some (stale ws cid tid) s i r)); [done|].
        split_and!; [done..|]. intros j y Hy Hj. by eapply Hpre. }
      destruct (spliceStale i r s !! i) as [r'|] eqn:Hr'; [|done].
      apply locate_no_stale. intros j y Hj Hy [Hid _].
      assert ((ID <$> spliceStale i r s) !! j = Some (ID y)) as Hlk
        by by rewrite list_lookup_fmap, Hy.
      rewrite spliceStale_IDs, list_lookup_delete_ge in Hlk by lia.
      assert ((ID <$> s) !! i = Some (ID r)) as Hlk'
        by by rewrite list_lookup_fmap, Hr.
      destruct Hst as [Hst _]. rewrite Hid, <- Hst in Hlk.
      pose proof (NoDup_lookup _ _ _ _ Hnd Hlk Hlk'). lia.
    + apply IH; [lia|]. intros j y Hj Hy.
      destruct (decide (j = i)) as [->|]; [congruence|].
      eapply Hpre; [|done]. lia.
Qed.

(** The scan as [updateSessionTable] runs it. *)
Lemma scan_found ws cid tid s s1 idx :
  locate (length s) ws cid tid s 0 (None, None) = (s1, idx) → found cid tid s1 idx.
Proof. apply locate_found; [lia|apply idx_ok_start]. Qed.

Lemma scan_cleanup ws cid tid s s1 idx :
  NoDup (ID <$> s) →
  locate (length s) ws cid tid s 0 (None, None) = (s1, idx) → s1 = cleanup ws cid tid s.
Proof.
  intros Hnd Hloc. rewrite <- (locate_table ws cid tid (length s) s 0 (None, None));
    [by rewrite Hloc|done|lia|intros; lia].
Qed.

(** ** The four cases *)

Lemma relink_rev cid tid k ws rt :
  rev cid tid rt →
  mkSession (ID rt) tid cid (clientKey rt) (Some k) (clientWS rt) (Some ws) = relink k ws rt.
Proof. intros [<- <-]. done. Qed.

(** [updateSessionTable] is the scan followed by [settle]. *)
Lemma updateSessionTable_settle ws cid tid k s s1 idx :
  locate (length s) ws cid tid s 0 (None, None) = (s1, idx) →
  updateSessionTable ws (Some cid) (Some tid) (Some k) s = settle ws cid tid k s1 idx.
Proof.
  intros Hloc. pose proof (scan_found _ _ _ _ _ _ Hloc) as [Hc Ht].
  unfold updateSessionTable. rewrite Hloc. destruct idx as [[ci|] [ti|]]; simpl in *.
  - destruct Hc as (rf & Hrf & Hf), Ht as (rt & Hrt & Hr & Hnf).
    assert (ci ≠ ti) by (intros ->; congruence).
    rewrite Hrt. unfold updateSessionFromIndex at 1. rewrite Hrf.
    rewrite list_lookup_insert_ne, Hrt by done.
    unfold updateSessionFromIndex. rewrite list_lookup_insert_ne, Hrt by done.
    rewrite relink_rev by done.
    rewrite list_lookup_insert_eq
      by (rewrite length_insert; by eapply lookup_lt_Some).
    simpl. by case_decide.
  - destruct Hc as (rf & Hrf & Hf).
    unfold updateSessionFromIndex. by rewrite Hrf.
  - destruct Ht as (rt & Hrt & Hr & Hnf). rewrite Hrt.
    unfold updateSessionFromIndex. rewrite Hrt.
    rewrite relink_rev by done.
    rewrite list_lookup_insert_eq by (by eapply lookup_lt_Some).
    unfold addSession. simpl.
    rewrite lookup_app_l by (rewrite length_insert; by eapply lookup_lt_Some).
    rewrite list_lookup_insert_eq by (by eapply lookup_lt_Some).
    simpl. by case_decide.
  - done.
Qed.

(** ** The table after the four cases *)

Lemma fwd_iff cid tid r : fwd cid tid r ↔ pairOf r = (cid, tid).
Proof. unfold fwd, pairOf. split; [by intros [-> ->]|by intros [= -> ->]]. Qed.

Lemma rev_iff cid tid r : rev cid tid r ↔ pairOf r = (tid, cid).
Proof. unfold rev, pairOf. split; [by intros [-> ->]|by intros [= -> ->]]. Qed.

Lemma partner_Some_inv cid tid s rt :
  partner cid tid s = Some rt → rt ∈ s ∧ rev cid tid rt ∧ ¬ fwd cid tid rt.
Proof.
  unfold partner. intros ([i x] & Hfind & ->)%fmap_Some.
  apply list_find_Some in Hfind as (Hx & HP & _).
  split; [by eapply list_elem_of_lookup_2|done].
Qed.

Lemma partner_Some cid tid s rt :
  NoDup (pairOf <$> s) → rt ∈ s → rev cid tid rt → ¬ fwd cid tid rt →
  partner cid tid s = Some rt.
Proof.
  intros Hnd Hin Hr Hnf.
  destruct (list_find_elem_of (λ r, rev cid tid r ∧ ¬ fwd cid tid r) s rt)
    as [[i x] Hfind]; [done..|].
  unfold partner. rewrite Hfind. simpl. f_equal.
  apply list_find_Some in Hfind as (Hx & [Hxr _] & _).
  eapply (keyed_elem pairOf); [done|by eapply list_elem_of_lookup_2|done|].
  apply rev_iff in Hr, Hxr. congruence.
Qed.

Lemma partner_None cid tid s :
  (∀ r, r ∈ s → fwd cid tid r ∨ ¬ rev cid tid r) → partner cid tid s = None.
Proof.
  intros Hall. unfold partner.
  rewrite (proj2 (list_find_None _ s)); [done|].
  apply Forall_forall. intros r Hr [? ?]. destruct (Hall r Hr); done.
Qed.

(** [settle] returns [verdict]. *)
Lemma settle_verdict ws cid tid k s1 idx :
  NoDup (pairOf <$> s1) → found cid tid s1 idx →
  (settle ws cid tid k s1 idx).2 = Some (verdict ws cid tid k s1).
Proof.
  intros Hnd [Hc Ht]. unfold verdict.
  destruct idx as [ci [ti|]]; simpl in *.
  - destruct Ht as (rt & Hrt & Hr & Hnf).
    rewrite (partner_Some cid tid s1 rt); [|by eauto using list_elem_of_lookup_2..].
    destruct ci; rewrite Hrt; done.
  - rewrite partner_None by done. by destruct ci.
Qed.

(** [settle] leaves the records [declared]. *)
Lemma settle_members ws cid tid k s1 idx x :
  NoDup (pairOf <$> s1) → found cid tid s1 idx →
  x ∈ (settle ws cid tid k s1 idx).1 ↔ declared ws cid tid k s1 x.
Proof.
  intros Hnd [Hc Ht]. unfold declared.
  destruct idx as [ci [ti|]]; simpl in *.
  - destruct Ht as (rt & Hrt & Hr & Hnf).
    pose proof (list_elem_of_lookup_2 _ _ _ Hrt) as Hin.
    rewrite (partner_Some cid tid s1 rt) by done. simpl.
    assert (Hrev : ∀ y, y ∈ s1 → pairOf y ≠ pairOf rt ↔ ¬ rev cid tid y).
    { intros y _. apply rev_iff in Hr. rewrite rev_iff. by rewrite Hr. }
    destruct ci as [ci|]; rewrite Hrt; simpl.
    + destruct Hc as (rf & Hrf & Hf).
      assert (ci ≠ ti) by (intros ->; congruence).
      set (new := own ws cid tid k (Some (clientKey rt)) (clientWS rt)).
      assert (NoDup (pairOf <$> <[ci:=new]> s1)) as Hnd'.
      { eapply keyed_insert_NoDup; [done..|]. intros y _ Hy.
        apply fwd_iff in Hf. by rewrite Hy, Hf. }
      rewrite (keyed_insert pairOf _ ti rt) by (by rewrite ?list_lookup_insert_ne).
      rewrite (keyed_insert pairOf _ ci rf) by done.
      assert (Hfwd : ∀ y, pairOf y ≠ pairOf rf ↔ ¬ fwd cid tid y).
      { intros y. apply fwd_iff in Hf. rewrite fwd_iff. by rewrite Hf. }
      split.
      * intros [->|[[->|[Hy Hyf]] Hyr]]; [right; left; eauto|by left|].
        right; right. split_and!; [done|by apply Hfwd|by apply Hrev].
      * intros [->|[(rt' & [= <-] & ->)|(Hy & Hyf & Hyr)]].
        -- right. split; [by left|]. intros Heq.
           apply Hnf, fwd_iff. by rewrite <- Heq.
        -- by left.
        -- right. split; [right; split; [done|by apply Hfwd]|by apply Hrev].
    + rewrite elem_of_app, list_elem_of_singleton.
      rewrite (keyed_insert pairOf _ ti rt) by done.
      split.
      * intros [[->|[Hy Hyr]]| ->]; [right; left; eauto| |by left].
        right; right. split_and!; [done|by apply Hc|by apply Hrev].
      * intros [->|[(rt' & [= <-] & ->)|(Hy & Hyf & Hyr)]];
          [by right|by left; left|].
        left; right. split; [done|by apply Hrev].
  - rewrite partner_None by done. simpl.
    assert (Hnone : ∀ P : Prop, (∃ rt : Session, None = Some rt ∧ P) ↔ False)
      by (intros P; split; [by intros (? & ? & ?)|done]).
    destruct ci as [ci|]; simpl.
    + destruct Hc as (rf & Hrf & Hf).
      rewrite (keyed_insert pairOf _ ci rf) by done.
      assert (Hfwd : ∀ y, pairOf y ≠ pairOf rf ↔ ¬ fwd cid tid y).
      { intros y. apply fwd_iff in Hf. rewrite fwd_iff. by rewrite Hf. }
      split.
      * intros [->|[Hy Hyf]]; [by left|]. right; right.
        apply Hfwd in Hyf. split_and!; [done..|]. by destruct (Ht x Hy).
      * intros [->|[(rt' & [=] & _)|(Hy & Hyf & Hyr)]]; [by left|].
        right. split; [done|by apply Hfwd].
    + rewrite elem_of_app, list_elem_of_singleton. split.
      * intros [Hy| ->]; [|by left]. right; right.
        pose proof (Hc x Hy). split_and!; [done..|]. by destruct (Ht x Hy).
      * intros [->|[(rt' & [=] & _)|(Hy & Hyf & Hyr)]]; [by right|by left].
Qed.

(** ** The invariant of the table *)

Lemma record_ok_clearTarget r : record_ok r → record_ok (clearTarget r).
Proof. intros [Hc _]. split; [done|]. simpl. done. Qed.

Lemma record_ok_clearFor r y : record_ok y → record_ok (clearFor r y).
Proof.
  unfold clearFor. destruct (targetWS r); [|done].
  case_decide; auto using record_ok_clearTarget.
Qed.

Lemma record_ok_relink k ws rt : record_ok rt → record_ok (relink k ws rt).
Proof. intros [Hc _]. split; [done|]. simpl. split; intros [=]. Qed.

Lemma record_ok_client r : record_ok r → ∃ w, clientWS r = Some w ∧ wsID w = ID r.
Proof.
  intros [Hc _]. unfold has_client in Hc. destruct (clientWS r) as [w|]; [|done]. eauto.
Qed.

Lemma record_ok_own ws cid tid k s :
  Forall record_ok s →
  record_ok (own ws cid tid k (clientKey <$> partner cid tid s) (partner cid tid s ≫= clientWS)).
Proof.
  intros Hall. split; [done|]. simpl.
  destruct (partner cid tid s) as [rt|] eqn:Hp; simpl; [|done].
  apply partner_Some_inv in Hp as [Hin _].
  destruct (record_ok_client rt) as (w & -> & _); [by eapply (proj1 (Forall_forall _ _) Hall)|].
  split; intros [=].
Qed.

Lemma WF_record s r : WF s → r ∈ s → record_ok r.
Proof. intros [_ _ Hall _] Hr. by eapply (proj1 (Forall_forall _ _) Hall). Qed.

Lemma WF_same_ID s x y : WF s → x ∈ s → y ∈ s → ID x = ID y → x = y.
Proof. intros [Hnd _ _ _]. by apply (keyed_elem ID). Qed.

Lemma WF_same_pair s x y : WF s → x ∈ s → y ∈ s → pairOf x = pairOf y → x = y.
Proof. intros [_ Hnd _ _]. by apply (keyed_elem pairOf). Qed.

(** The record a link points at is the one its target socket owns. *)
Lemma WF_back s r w r' :
  WF s → r ∈ s → targetWS r = Some w → r' ∈ s → ID r' = wsID w →
  clientID r ≠ targetID r ∧ rev (clientID r) (targetID r) r' ∧ has_target (ID r) r'.
Proof.
  intros Hwf Hr Hw Hr' Hid.
  destruct (wf_linked s Hwf r w Hr Hw) as (Hne & r'' & Hin & Hid'' & Hrev & Hback).
  assert (r'' = r') as -> by (eapply WF_same_ID; eauto; congruence). done.
Qed.

(** At most one record points at a given socket. *)
Lemma WF_pointer_unique s x y id :
  WF s → x ∈ s → y ∈ s → has_target id x → has_target id y → x = y.
Proof.
  intros Hwf Hx Hy Htx Hty. unfold has_target in Htx, Hty.
  destruct (targetWS x) as [wx|] eqn:Hwx; [|done].
  destruct (targetWS y) as [wy|] eqn:Hwy; [|done].
  destruct (wf_linked s Hwf x wx Hx Hwx) as (_ & x' & Hx' & Hidx & Hrx & _).
  destruct (WF_back s y wy x' Hwf Hy Hwy Hx') as (_ & Hry & _); [congruence|].
  eapply WF_same_pair; eauto.
  destruct Hrx as [Hx1 Hx2], Hry as [Hy1 Hy2]. unfold pairOf. congruence.
Qed.

(** *** The cleanup of the scan *)

Lemma cleanup_cases ws cid tid s :
  (cleanup ws cid tid s = s ∧ ∀ y, y ∈ s → ¬ stale ws cid tid y) ∨
  (∃ j r, s !! j = Some r ∧ stale ws cid tid r ∧
          cleanup ws cid tid s = delete j (clearFor r <$> s)).
Proof.
  unfold cleanup. destruct (list_find _ s) as [[j r]|] eqn:Hfind.
  - right. apply list_find_Some in Hfind as (Hj & Hst & _).
    exists j, r. by rewrite spliceStale_clearFor.
  - left. split; [done|]. apply list_find_None in Hfind.
    by apply Forall_forall.
Qed.

Lemma splice_members s j r x :
  NoDup (ID <$> s) → s !! j = Some r →
  x ∈ delete j (clearFor r <$> s) ↔ ∃ y, y ∈ s ∧ ID y ≠ ID r ∧ x = clearFor r y.
Proof.
  intros Hnd Hj.
  assert (ID <$> (clearFor r <$> s) = ID <$> s) as Hids.
  { rewrite <- list_fmap_compose. apply list_fmap_ext. intros ? y _. apply ID_clearFor. }
  rewrite (keyed_delete ID _ j (clearFor r r));
    [|by rewrite Hids|by rewrite list_lookup_fmap, Hj].
  rewrite list_elem_of_fmap, ID_clearFor. split.
  - intros [(y & -> & Hy) Hne]. rewrite ID_clearFor in Hne. eauto.
  - intros (y & Hy & Hne & ->). rewrite ID_clearFor. eauto.
Qed.

Lemma clearFor_target r y w :
  targetWS (clearFor r y) = Some w →
  clearFor r y = y ∧ ∀ tw, targetWS r = Some tw → ID y ≠ wsID tw.
Proof.
  unfold clearFor. destruct (targetWS r) as [tw|]; [|by split].
  case_decide; [done|]. split; [done|]. by intros ? [= <-].
Qed.

Lemma clearFor_other r y :
  (∀ tw, targetWS r = Some tw → ID y ≠ wsID tw) → clearFor r y = y.
Proof.
  unfold clearFor. destruct (targetWS r) as [tw|]; [|done].
  intros Hne. case_decide; [|done]. by destruct (Hne tw).
Qed.

(** After the scan every record of the declaring socket has the declared
    pair. *)
Lemma cleanup_owned ws cid tid s x :
  NoDup (ID <$> s) → x ∈ cleanup ws cid tid s → ID x = wsID ws → fwd cid tid x.
Proof.
  intros Hnd Hx Hid.
  destruct (cleanup_cases ws cid tid s) as [[Heq Hns]|(j & r & Hj & [Hst _] & Heq)];
    rewrite Heq in Hx.
  - destruct (decide (fwd cid tid x)) as [|Hn]; [done|].
    destruct (Hns x Hx). split; [done|]. unfold fwd in Hn.
    destruct (decide (clientID x = cid)); [|by left].
    destruct (decide (targetID x = tid)); [|by right]. by destruct Hn.
  - apply splice_members in Hx as (y & _ & Hne & ->); [|done..].
    rewrite ID_clearFor in Hid. congruence.
Qed.

Lemma cleanup_WF ws cid tid s : WF s → WF (cleanup ws cid tid s).
Proof.
  intros Hwf.
  destruct (cleanup_cases ws cid tid s) as [[-> _]|(j & r & Hj & Hst & ->)]; [done|].
  pose proof (list_elem_of_lookup_2 _ _ _ Hj) as Hr.
  pose proof (wf_ids s Hwf) as Hids.
  split.
  - rewrite <- spliceStale_clearFor, spliceStale_IDs.
    eapply sublist_NoDup; [done|apply sublist_delete].
  - rewrite <- spliceStale_clearFor, spliceStale_pairs.
    eapply sublist_NoDup; [apply Hwf|apply sublist_delete].
  - apply Forall_forall. intros x (y & Hy & _ & ->)%splice_members; [|done..].
    apply record_ok_clearFor. by eapply WF_record.
  - intros x w (y & Hy & Hne & ->)%splice_members Hw; [|done..].
    apply clearFor_target in Hw as Hkeep. destruct Hkeep as [Hxy Hnc].
    rewrite Hxy in Hw |- *.
    destruct (wf_linked s Hwf y w Hy Hw) as (Hct & y' & Hy' & Hid' & Hrev & Hback).
    split; [done|]. exists y'. split_and!; [|done..].
    apply splice_members; [done..|]. exists y'.
    assert (ID y' ≠ ID r) as Hne'.
    { intros Heq. assert (y' = r) as -> by (eapply WF_same_ID; eauto).
      unfold has_target in Hback. destruct (targetWS r) as [tw|] eqn:Htw; [|done].
      by destruct (Hnc tw). }
    split_and!; [done..|]. symmetry. apply clearFor_other.
    intros tw Htw Heq.
    destruct (WF_back s r tw y' Hwf Hr Htw Hy' Heq) as (_ & _ & Hback').
    unfold has_target in Hback, Hback'.
    destruct (targetWS y'); [congruence|done].
Qed.

(** *** The four cases *)

Lemma settle_WF ws cid tid k s1 idx :
  WF s1 → (∀ x, x ∈ s1 → ID x = wsID ws → fwd cid tid x) →
  found cid tid s1 idx → WF (settle ws cid tid k s1 idx).1.
Proof.
  intros Hwf Hown Hfound.
  pose proof (wf_ids s1 Hwf) as Hids. pose proof (wf_pairs s1 Hwf) as Hprs.
  pose proof (wf_records s1 Hwf) as Hrec.
  assert (Hmem : ∀ x, x ∈ (settle ws cid tid k s1 idx).1 ↔ declared ws cid tid k s1 x)
    by (intros x; by apply settle_members).
  split.
  - (* IDs *)
    destruct Hfound as [Hc Ht]. destruct idx as [[ci|] [ti|]]; simpl in *.
    + destruct Hc as (rf & Hrf & Hf), Ht as (rt & Hrt & Hr & Hnf). rewrite Hrt. simpl.
      assert (ci ≠ ti) by (intros ->; congruence).
      eapply (keyed_insert_NoDup ID); [|by rewrite list_lookup_insert_ne|done].
      eapply (keyed_insert_NoDup ID); [done..|]. simpl. intros y Hy Hid.
      f_equal. eapply WF_same_pair; eauto using list_elem_of_lookup_2.
      apply Hown in Hid; [|done]. apply fwd_iff in Hid, Hf. congruence.
    + destruct Hc as (rf & Hrf & Hf).
      eapply (keyed_insert_NoDup ID); [done..|]. simpl. intros y Hy Hid.
      f_equal. eapply WF_same_pair; eauto using list_elem_of_lookup_2.
      apply Hown in Hid; [|done]. apply fwd_iff in Hid, Hf. congruence.
    + destruct Ht as (rt & Hrt & Hr & Hnf). rewrite Hrt. simpl.
      apply (keyed_snoc_NoDup ID).
      * eapply (keyed_insert_NoDup ID); [done..|]. done.
      * intros y Hy Hid. simpl in Hid.
        rewrite (keyed_insert ID _ ti rt) in Hy by done. destruct Hy as [->|[Hy _]].
        -- apply Hnf, Hown; [by eapply list_elem_of_lookup_2|done].
        -- by eapply Hc, Hown.
    + apply (keyed_snoc_NoDup ID); [done|]. intros y Hy Hid. by eapply Hc, Hown.
  - (* pairs *)
    destruct Hfound as [Hc Ht]. destruct idx as [[ci|] [ti|]]; simpl in *.
    + destruct Hc as (rf & Hrf & Hf), Ht as (rt & Hrt & Hr & Hnf). rewrite Hrt. simpl.
      assert (ci ≠ ti) by (intros ->; congruence).
      eapply (keyed_insert_NoDup pairOf); [|by rewrite list_lookup_insert_ne|done].
      eapply (keyed_insert_NoDup pairOf); [done..|]. intros y Hy Hp.
      apply fwd_iff in Hf. by rewrite Hp, Hf.
    + destruct Hc as (rf & Hrf & Hf).
      eapply (keyed_insert_NoDup pairOf); [done..|]. intros y Hy Hp.
      apply fwd_iff in Hf. by rewrite Hp, Hf.
    + destruct Ht as (rt & Hrt & Hr & Hnf). rewrite Hrt. simpl.
      apply (keyed_snoc_NoDup pairOf).
      * eapply (keyed_insert_NoDup pairOf); [done..|]. done.
      * intros y Hy Hp.
        rewrite (keyed_insert pairOf _ ti rt) in Hy by done. destruct Hy as [->|[Hy _]].
        -- by apply Hnf, fwd_iff.
        -- by eapply Hc, fwd_iff.
    + apply (keyed_snoc_NoDup pairOf); [done|]. intros y Hy Hp. by eapply Hc, fwd_iff.
  - (* records *)
    apply Forall_forall. intros x [->|[(rt & Hp & ->)|(Hx & _)]]%Hmem.
    + by apply record_ok_own.
    + apply record_ok_relink. apply partner_Some_inv in Hp as [Hin _].
      by eapply WF_record.
    + by eapply WF_record.
  - (* links *)
    intros x w [->|[(rt & Hp & ->)|(Hx & Hxf & Hxr)]]%Hmem Hw.
    + simpl in Hw. destruct (partner cid tid s1) as [rt|] eqn:Hp; [|done].
      simpl in Hw. apply partner_Some_inv in Hp as Hrt.
      destruct Hrt as (Hin & [Hr1 Hr2] & Hnf).
      destruct (record_ok_client rt) as (w' & Hw' & Hid'); [by eapply WF_record|].
      assert (w' = w) as -> by congruence. simpl. split.
      * intros ->. apply Hnf. split; congruence.
      * exists (relink k ws rt). split_and!; [|done..].
        apply Hmem. right; left. eauto.
    + simpl in Hw. injection Hw as <-.
      apply partner_Some_inv in Hp as Hrt. destruct Hrt as (Hin & [Hr1 Hr2] & Hnf).
      simpl. split.
      * intros Heq. apply Hnf. split; congruence.
      * eexists. split; [apply Hmem; by left|]. rewrite Hp. simpl.
        split_and!; [done|by split|].
        destruct (record_ok_client rt) as (w' & Hw' & Hid'); [by eapply WF_record|].
        unfold has_target. simpl. by rewrite Hw'.
    + destruct (wf_linked s1 Hwf x w Hx Hw) as (Hne & x' & Hx' & Hid' & [Hr1 Hr2] & Hback).
      split; [done|]. exists x'. split_and!; [|done..].
      apply Hmem. right; right. split_and!; [done| |].
      * intros [Hf1 Hf2]. apply Hxr. split; congruence.
      * intros [Hf1 Hf2]. apply Hxf. split; congruence.
Qed.

(** The table [updateSessionTable] leaves, and the value it returns. *)
Lemma updateSessionTable_spec ws cid tid k s :
  NoDup (ID <$> s) → NoDup (pairOf <$> s) →
  ∃ idx,
    found cid tid (cleanup ws cid tid s) idx ∧
    updateSessionTable ws (Some cid) (Some tid) (Some k) s
      = settle ws cid tid k (cleanup ws cid tid s) idx.
Proof.
  intros Hids Hprs.
  destruct (locate (length s) ws cid tid s 0 (None, None)) as [s1 idx] eqn:Hloc.
  pose proof (scan_cleanup _ _ _ _ _ _ Hids Hloc) as ->.
  exists idx. split; [by eapply scan_found|by apply updateSessionTable_settle].
Qed.

Lemma updateSessionTable_WF ws client target key s :
  WF s → WF (updateSessionTable ws client target key s).1.
Proof.
  intros Hwf. destruct client as [cid|], target as [tid|], key as [k|]; try done.
  destruct (updateSessionTable_spec ws cid tid k s) as (idx & Hfound & ->);
    [apply Hwf..|].
  apply settle_WF; [by apply cleanup_WF| |done].
  intros x. apply cleanup_owned, Hwf.
Qed.

(** *** Disconnects *)

Lemma clearFromTargetID_IDs id s :
  ID <$> (updateSessionClearTargetInfoFromTargetID id s).1 = ID <$> s.
Proof.
  unfold updateSessionClearTargetInfoFromTargetID.
  destruct (list_find _ s) as [[i q]|] eqn:Hfind; [|done]. simpl.
  apply list_find_Some in Hfind as (Hq & _).
  rewrite list_fmap_insert. apply list_insert_id. by rewrite list_lookup_fmap, Hq.
Qed.

Lemma clearFromTargetID_pairs id s :
  pairOf <$> (updateSessionClearTargetInfoFromTargetID id s).1 = pairOf <$> s.
Proof.
  unfold updateSessionClearTargetInfoFromTargetID.
  destruct (list_find _ s) as [[i q]|] eqn:Hfind; [|done]. simpl.
  apply list_find_Some in Hfind as (Hq & _).
  rewrite list_fmap_insert. apply list_insert_id. by rewrite list_lookup_fmap, Hq.
Qed.

Lemma clearFromTargetID_members id s x :
  WF s →
  x ∈ (updateSessionClearTargetInfoFromTargetID id s).1 ↔ ∃ y, y ∈ s ∧ x = dropLink id y.
Proof.
  intros Hwf. unfold updateSessionClearTargetInfoFromTargetID, dropLink.
  destruct (list_find _ s) as [[i q]|] eqn:Hfind; simpl.
  - apply list_find_Some in Hfind as (Hq & Hqt & _).
    pose proof (list_elem_of_lookup_2 _ _ _ Hq) as Hqin.
    rewrite (keyed_insert ID _ i q) by (done || apply Hwf). split.
    + intros [->|[Hx Hne]].
      * exists q. split; [done|]. by rewrite decide_True.
      * exists x. split; [done|]. rewrite decide_False; [done|].
        intros Hxt. apply Hne. f_equal. by eapply WF_pointer_unique.
    + intros (y & Hy & ->). case_decide as Hyt.
      * left. f_equal. by eapply WF_pointer_unique.
      * right. split; [done|]. intros Heq.
        assert (y = q) as -> by (by eapply WF_same_ID). done.
  - apply list_find_None in Hfind. split.
    + intros Hx. exists x. split; [done|]. rewrite decide_False; [done|].
      by eapply (proj1 (Forall_forall _ _) Hfind).
    + intros (y & Hy & ->). rewrite decide_False; [done|].
      by eapply (proj1 (Forall_forall _ _) Hfind).
Qed.

Lemma deleteSessionFromID_sublist id s : deleteSessionFromID id s `sublist_of` s.
Proof.
  unfold deleteSessionFromID. destruct (list_find _ s) as [[i q]|]; [|done].
  apply sublist_delete.
Qed.

Lemma deleteSessionFromID_members id s x :
  NoDup (ID <$> s) → x ∈ deleteSessionFromID id s ↔ x ∈ s ∧ ID x ≠ id.
Proof.
  intros Hnd. unfold deleteSessionFromID.
  destruct (list_find _ s) as [[i q]|] eqn:Hfind.
  - apply list_find_Some in Hfind as (Hq & <- & _). by apply (keyed_delete ID).
  - apply list_find_None in Hfind. split; [|by intros [? _]].
    intros Hx. split; [done|]. by eapply (proj1 (Forall_forall _ _) Hfind).
Qed.

(** The records a disconnect leaves. *)
Lemma onclose_members ws s x :
  WF s →
  x ∈ table (onclose ws s) ↔ ∃ y, y ∈ s ∧ ID y ≠ wsID ws ∧ x = dropLink (wsID ws) y.
Proof.
  intros Hwf. unfold onclose.
  destruct (updateSessionClearTargetInfoFromTargetID (wsID ws) s) as [s1 p] eqn:Hs1.
  simpl. assert (s1 = (updateSessionClearTargetInfoFromTargetID (wsID ws) s).1) as ->
    by by rewrite Hs1.
  rewrite deleteSessionFromID_members
    by (rewrite clearFromTargetID_IDs; apply Hwf).
  rewrite clearFromTargetID_members by done.
  assert (Hid : ∀ y, ID (dropLink (wsID ws) y) = ID y)
    by (intros y; unfold dropLink; by case_decide).
  split.
  - intros [(y & Hy & ->) Hne]. rewrite Hid in Hne. eauto.
  - intros (y & Hy & Hne & ->). rewrite Hid. eauto.
Qed.

Lemma onclose_WF ws s : WF s → WF (table (onclose ws s)).
Proof.
  intros Hwf.
  assert (Hmem := λ x, onclose_members ws s x Hwf).
  unfold onclose in *.
  destruct (updateSessionClearTargetInfoFromTargetID (wsID ws) s) as [s1 p] eqn:Hs1.
  simpl in *.
  assert (s1 = (updateSessionClearTargetInfoFromTargetID (wsID ws) s).1) as Hs1'
    by by rewrite Hs1.
  split.
  - eapply sublist_NoDup; [|apply fmap_sublist, deleteSessionFromID_sublist].
    rewrite Hs1', clearFromTargetID_IDs. apply Hwf.
  - eapply sublist_NoDup; [|apply fmap_sublist, deleteSessionFromID_sublist].
    rewrite Hs1', clearFromTargetID_pairs. apply Hwf.
  - apply Forall_forall. intros x (y & Hy & _ & ->)%Hmem.
    unfold dropLink. case_decide; [apply record_ok_clearTarget|]; by eapply WF_record.
  - intros x w (y & Hy & Hne & ->)%Hmem Hw.
    unfold dropLink in Hw |- *. case_decide as Hyt; [done|].
    destruct (wf_linked s Hwf y w Hy Hw) as (Hct & y' & Hy' & Hid' & Hrev & Hback).
    split; [done|]. exists y'. split_and!; [|done..].
    apply Hmem. exists y'. split_and!; [done| |].
    + rewrite Hid'. intros Heq. apply Hyt. unfold has_target. by rewrite Hw.
    + unfold dropLink. rewrite decide_False; [done|]. intros Hyt'.
      unfold has_target in Hback, Hyt'. destruct (targetWS y'); [congruence|done].
Qed.

(** *** Every reachable table satisfies the invariant *)

Lemma processCommand_table ws command s : table (processCommand ws command s) = s.
Proof.
  unfold processCommand. destruct (getTargetWSFromSession ws s) as [|[|]]; done.
Qed.

Lemma onmessage_table ws data s :
  table (onmessage ws data s) =
    match data with
    | SESSION client target key => (updateSessionTable ws client target key s).1
    | _ => s
    end.
Proof.
  destruct data as [client target key|command|]; simpl;
    [|apply processCommand_table|done].
  destruct (updateSessionTable ws client target key s) as [s' [res|]]; [|done].
  simpl. repeat case_decide; try done; by destruct (targetWS_of res).
Qed.

Lemma handle_WF e s : WF s → WF (table (handle e s)).
Proof.
  intros Hwf. destruct e as [ws data|ws]; simpl; [|by apply onclose_WF].
  rewrite onmessage_table. destruct data; [|done..].
  by apply updateSessionTable_WF.
Qed.

Lemma onmessage_WF ws data s : WF s → WF (table (onmessage ws data s)).
Proof. apply (handle_WF (Receive ws data)). Qed.

Lemma reachable_WF s : reachable s → WF s.
Proof.
  induction 1 as [|s e _ IH]; [|by apply handle_WF].
  split; [constructor|constructor|constructor|]. by intros r w ?%elem_of_nil.
Qed.

(** ** The handlers on a table that satisfies the invariant *)

Lemma cleanup_id ws cid tid s :
  (∀ y, y ∈ s → ¬ stale ws cid tid y) → cleanup ws cid tid s = s.
Proof.
  intros Hns. unfold cleanup.
  rewrite (proj2 (list_find_None _ s)); [done|]. by apply Forall_forall.
Qed.

Lemma onmessage_declaration ws cid tid k s :
  WF s →
  (∀ x, x ∈ table (onmessage ws (declaration cid tid k) s)
        ↔ declared ws cid tid k (cleanup ws cid tid s) x) ∧
  sent (onmessage ws (declaration cid tid k) s) = notices ws cid tid k (cleanup ws cid tid s).
Proof.
  intros Hwf. unfold declaration.
  destruct (updateSessionTable_spec ws cid tid k s) as (idx & Hfound & Hupd);
    [apply Hwf..|].
  pose proof (cleanup_WF ws cid tid s Hwf) as Hwf1.
  pose proof (settle_verdict ws cid tid k _ idx (wf_pairs _ Hwf1) Hfound) as Hres.
  split.
  - intros x. rewrite onmessage_table, Hupd. apply settle_members; [apply Hwf1|done].
  - unfold onmessage. rewrite Hupd.
    destruct (settle ws cid tid k (cleanup ws cid tid s) idx) as [s' res].
    simpl in Hres. subst res. unfold verdict, notices.
    destruct (partner cid tid (cleanup ws cid tid s)) as [rt|]; [|done].
    destruct (decide (k = clientKey rt)); by destruct (clientWS rt).
Qed.

(** The relay lookup finds the one record the socket owns. *)
Lemma getTargetWSFromSession_own ws s r :
  WF s → r ∈ s → ID r = wsID ws →
  getTargetWSFromSession ws s =
    if decide (Some (clientKey r) = targetKey r) then TargetWS (targetWS r)
    else TargetNum (-2).
Proof.
  intros Hwf Hr Hid. unfold getTargetWSFromSession.
  assert (has_client (wsID ws) r) as Hc
    by (rewrite <- Hid; by apply (WF_record s r)).
  destruct (list_find_elem_of (has_client (wsID ws)) s r) as [[i x] Hfind]; [done..|].
  rewrite Hfind. apply list_find_Some in Hfind as (Hx & Hxc & _).
  apply list_elem_of_lookup_2 in Hx.
  assert (x = r) as ->; [|done].
  eapply WF_same_ID; [done..|]. rewrite Hid.
  destruct (record_ok_client x) as (w & Hw & <-); [by eapply WF_record|].
  unfold has_client in Hxc. by rewrite Hw in Hxc.
Qed.

(** Equal keys mean a target socket is there. *)
Lemma WF_keys_target s r :
  WF s → r ∈ s → Some (clientKey r) = targetKey r → targetWS r ≠ None.
Proof.
  intros Hwf Hr Hk Ht. destruct (WF_record s r Hwf Hr) as [_ [_ Hnull]].
  rewrite Hnull in Hk; done.
Qed.

Lemma WF_lookup s ws :
  WF s →
  getTargetWSFromSession ws s = TargetNum (-1) ∨
  getTargetWSFromSession ws s = TargetNum (-2) ∨
  ∃ w, getTargetWSFromSession ws s = TargetWS (Some w).
Proof.
  intros Hwf. unfold getTargetWSFromSession.
  destruct (list_find _ s) as [[i r]|] eqn:Hfind; [|by left].
  apply list_find_Some in Hfind as (Hr%list_elem_of_lookup_2 & _).
  case_decide as Hk; [|by right; left]. right; right.
  destruct (targetWS r) as [w|] eqn:Hw; [by exists w|].
  by destruct (WF_keys_target s r Hwf Hr Hk).
Qed.

Lemma WF_processCommand_threw s ws command :
  WF s → threw (processCommand ws command s) = false.
Proof.
  intros Hwf. unfold processCommand.
  destruct (WF_lookup s ws Hwf) as [->|[->|[w ->]]]; done.
Qed.

(** No handler throws on a table that satisfies the invariant. *)
Lemma WF_handle_threw e s : WF s → threw (handle e s) = false.
Proof.
  intros Hwf. destruct e as [ws [client target key|command|]|ws]; simpl.
  - destruct client as [cid|], target as [tid|], key as [k|]; try done.
    destruct (updateSessionTable_spec ws cid tid k s) as (idx & Hfound & ->);
      [apply Hwf..|].
    pose proof (cleanup_WF ws cid tid s Hwf) as Hwf1.
    pose proof (settle_verdict ws cid tid k _ idx (wf_pairs _ Hwf1) Hfound) as Hres.
    destruct (settle ws cid tid k (cleanup ws cid tid s) idx) as [s' res].
    simpl in Hres. subst res. unfold verdict.
    destruct (partner cid tid (cleanup ws cid tid s)) as [rt|] eqn:Hp; [|done].
    apply partner_Some_inv in Hp as [Hin _].
    destruct (record_ok_client rt) as (w & Hw & _); [by eapply WF_record|].
    rewrite Hw. by destruct (decide (k = clientKey rt)).
  - by apply WF_processCommand_threw.
  - done.
  - unfold onclose. by destruct (updateSessionClearTargetInfoFromTargetID (wsID ws) s).
Qed.

Lemma reachable_never_throws e s : reachable s → threw (handle e s) = false.
Proof. intros Hwf%reachable_WF. by apply WF_handle_threw. Qed.

(** Every table a run of events produces is reachable. *)
Lemma reachable_run_from s es : reachable s → reachable (table (run_from s es)).
Proof.
  unfold run_from. intros Hs.
  assert (reachable (table (mkRun s [] false))) as Hr by done.
  revert Hr. generalize (mkRun s [] false). induction es as [|e es IH]; intros r Hr; [done|].
  simpl. apply IH. by constructor.
Qed.

(** * Properties of the broker *)

(** ** The scenario of the specification, run on the model *)

Example scenario_first_declaration :
  sent (run_from [] [declare wsA "a" "b" "k"]) = [(wsA, "SESSION_NOT_UP: -1")].
Proof. reflexivity. Qed.

Example scenario_second_declaration :
  sent (run_from [] [declare wsA "a" "b" "k"; declare wsB "b" "a" "k"])
    = [(wsB, "SESSION_UP"); (wsA, "SESSION_UP")].
Proof. reflexivity. Qed.

Example scenario_command :
  sent (run_from [] [declare wsA "a" "b" "k"; declare wsB "b" "a" "k";
                     Receive wsA (COMMAND "ping")])
    = [(wsB, "ping")].
Proof. reflexivity. Qed.

Example scenario_disconnect :
  run_from [] [declare wsA "a" "b" "k"; declare wsB "b" "a" "k";
               Receive wsA (COMMAND "ping"); Close wsB]
    = mkRun [mkSession 1 "a" "b" "k" None (Some wsA) None]
            [(wsA, "SESSION_NOT_UP: -1")] false.
Proof. reflexivity. Qed.

(** A record of the declared pair is taken over by whichever socket declares
    the pair next. *)
Example scenario_takeover :
  run_from [] [declare wsA "a" "b" "k"; declare wsD "a" "b" "j"]
    = mkRun [mkSession 3 "a" "b" "j" None (Some wsD) None]
            [(wsD, "SESSION_NOT_UP: -1")] false.
Proof. reflexivity. Qed.

Lemma reachable_paired : reachable paired.
Proof. apply reachable_run_from. constructor. Qed.

Lemma confirmed_paired : confirmed_pair paired wsA wsB "a" "b" "k".
Proof. split; vm_compute; [left|right; left]. Qed.

Lemma confirmed_pair_facts s A B a b k :
  WF s → confirmed_pair s A B a b k → a ≠ b ∧ wsID A ≠ wsID B.
Proof.
  intros Hwf [HA HB].
  destruct (wf_linked s Hwf _ B HA eq_refl) as [Hne _]. simpl in Hne.
  split; [done|]. intros Heq.
  assert (Hsame := WF_same_ID s _ _ Hwf HA HB Heq). by injection Hsame.
Qed.

(** ** Pairing *)

Lemma pairing_spec s A B a b k1 k2 :
  WF s → no_record s A → no_record s B → wsID A ≠ wsID B → a ≠ b →
  WF (table (pairing s A B a b k1 k2)) ∧
  sent (pairing s A B a b k1 k2) =
    (let text := if decide (k2 = k1) then "SESSION_UP" else "SESSION_NOT_UP: -2" in
     [(B, text); (A, text)]) ∧
  (∃ tk tw, relink k2 B (own A a b k1 tk tw) ∈ table (pairing s A B a b k1 k2)) ∧
  own B b a k2 (Some k1) (Some A) ∈ table (pairing s A B a b k1 k2).
Proof.
  intros Hwf HnA HnB HAB Hab. unfold pairing.
  destruct (onmessage_declaration A a b k1 s Hwf) as [Hmem1 _].
  pose proof (onmessage_WF A (declaration a b k1) s Hwf) as Hwf1.
  set (s1 := table (onmessage A (declaration a b k1) s)) in *.
  rewrite cleanup_id in Hmem1 by (intros y Hy [Hid _]; by apply (HnA y)).
  set (rA := own A a b k1 (clientKey <$> partner a b s) (partner a b s ≫= clientWS)).
  assert (rA ∈ s1) as HrA by (apply Hmem1; by left).
  assert (no_record s1 B) as HnB1.
  { intros x [->|[(rt & Hp & ->)|(Hx & _)]]%Hmem1; [done| |by apply HnB].
    apply partner_Some_inv in Hp as [Hin _]. by apply (HnB rt). }
  destruct (onmessage_declaration B b a k2 s1 Hwf1) as [Hmem2 Hsent2].
  rewrite cleanup_id in Hmem2, Hsent2 by (intros y Hy [Hid _]; by apply (HnB1 y)).
  assert (partner b a s1 = Some rA) as Hp.
  { apply partner_Some; [apply Hwf1|done|by split|]. intros [Hc _]. by apply Hab. }
  split_and!.
  - by apply onmessage_WF.
  - rewrite Hsent2. unfold notices. by rewrite Hp.
  - eexists _, _. apply Hmem2. right; left. eauto.
  - apply Hmem2. left. by rewrite Hp.
Qed.

Lemma relay_own ws command s r :
  WF s → r ∈ s → ID r = wsID ws →
  sent (onmessage ws (COMMAND command) s) =
    if decide (Some (clientKey r) = targetKey r)
    then match targetWS r with Some w => [(w, command)] | None => [] end
    else [].
Proof.
  intros Hwf Hr Hid. simpl. unfold processCommand.
  rewrite (getTargetWSFromSession_own ws s r) by done.
  case_decide; [|done]. by destruct (targetWS r).
Qed.

(** C3, as amended: for every two distinct connections A and B (their IDs
    differ) with no prior records, if A declares (a,b,k) with a different from
    b and then B declares (b,a,k) with the same key k, both connections are
    sent "SESSION_UP", and a subsequent relay command from either connection
    is sent on the other connection. *)
Theorem symmetry_of_pairing s A B a b k command :
  reachable s → no_record s A → no_record s B → wsID A ≠ wsID B → a ≠ b →
  symmetry s A B a b k command.
Proof.
  intros Hs HnA HnB HAB Hab. apply reachable_WF in Hs.
  destruct (pairing_spec s A B a b k k Hs HnA HnB HAB Hab)
    as (Hwf & Hsent & (tk & tw & HrA) & HrB).
  unfold symmetry. split_and!.
  - rewrite Hsent. simpl. by rewrite decide_True.
  - rewrite (relay_own A command _ _ Hwf HrA) by done. simpl. by rewrite decide_True.
  - rewrite (relay_own B command _ _ Hwf HrB) by done. simpl. by rewrite decide_True.
Qed.

Lemma symmetry_of_pairing_witness :
  reachable [] ∧ no_record [] wsA ∧ no_record [] wsB ∧ wsID wsA ≠ wsID wsB ∧
  "a" ≠ "b" ∧ symmetry [] wsA wsB "a" "b" "k" "ping".
Proof.
  assert (reachable []) as H1 by constructor.
  assert (no_record [] wsA) as H2 by (intros r Hr; by apply elem_of_nil in Hr).
  assert (no_record [] wsB) as H3 by (intros r Hr; by apply elem_of_nil in Hr).
  assert (wsID wsA ≠ wsID wsB) as H4 by (vm_compute; discriminate).
  assert ("a" ≠ "b") as H5 by discriminate.
  split_and!; [done..|]. exact (symmetry_of_pairing [] wsA wsB "a" "b" "k" "ping" H1 H2 H3 H4 H5).
Defined.

(** C3, as stated, fails when the two identifiers are the same: the second
    declaration takes over the record of the first and is told
    "SESSION_NOT_UP: -1". *)
Lemma symmetry_fails_on_self_pair :
  reachable [] ∧ no_record [] wsA ∧ no_record [] wsB ∧ wsID wsA ≠ wsID wsB ∧
  ¬ symmetry [] wsA wsB "a" "a" "k" "ping".
Proof.
  split_and!; [constructor|by intros r ?%elem_of_nil..|by vm_compute|].
  intros [Hsent _]. vm_compute in Hsent. discriminate.
Qed.

(** C4, as amended: for every two distinct connections A and B (their IDs
    differ) with no prior records, if A declares (a,b,k1) with a different
    from b and then B declares (b,a,k2) with k1 different from k2, both
    connections are sent "SESSION_NOT_UP: -2", and a subsequent relay command
    from either connection is dropped: nothing is sent. *)
Theorem mismatch_of_pairing s A B a b k1 k2 command :
  reachable s → no_record s A → no_record s B → wsID A ≠ wsID B → a ≠ b →
  k1 ≠ k2 → mismatch s A B a b k1 k2 command.
Proof.
  intros Hs HnA HnB HAB Hab Hk. apply reachable_WF in Hs.
  destruct (pairing_spec s A B a b k1 k2 Hs HnA HnB HAB Hab)
    as (Hwf & Hsent & (tk & tw & HrA) & HrB).
  unfold mismatch. split_and!.
  - rewrite Hsent. simpl. by rewrite decide_False.
  - rewrite (relay_own A command _ _ Hwf HrA) by done. simpl.
    rewrite decide_False; [done|congruence].
  - rewrite (relay_own B command _ _ Hwf HrB) by done. simpl.
    rewrite decide_False; [done|congruence].
Qed.

Lemma mismatch_of_pairing_witness :
  reachable [] ∧ no_record [] wsA ∧ no_record [] wsB ∧ wsID wsA ≠ wsID wsB ∧
  "a" ≠ "b" ∧ "k" ≠ "j" ∧ mismatch [] wsA wsB "a" "b" "k" "j" "ping".
Proof.
  assert (reachable []) as H1 by constructor.
  assert (no_record [] wsA) as H2 by (intros r Hr; by apply elem_of_nil in Hr).
  assert (no_record [] wsB) as H3 by (intros r Hr; by apply elem_of_nil in Hr).
  assert (wsID wsA ≠ wsID wsB) as H4 by (vm_compute; discriminate).
  assert ("a" ≠ "b") as H5 by discriminate.
  assert ("k" ≠ "j") as H6 by discriminate.
  split_and!; [done..|].
  exact (mismatch_of_pairing [] wsA wsB "a" "b" "k" "j" "ping" H1 H2 H3 H4 H5 H6).
Defined.

(** C4, as stated, fails when the two identifiers are the same: the second
    declaration takes over the record of the first, only its sender is
    answered, with "SESSION_NOT_UP: -1". *)
Lemma mismatch_fails_on_self_pair :
  reachable [] ∧ no_record [] wsA ∧ no_record [] wsB ∧ wsID wsA ≠ wsID wsB ∧
  "k" ≠ "j" ∧ ¬ mismatch [] wsA wsB "a" "a" "k" "j" "ping".
Proof.
  split_and!; [constructor|by intros r ?%elem_of_nil..|by vm_compute|done|].
  intros [Hsent _]. vm_compute in Hsent. discriminate.
Qed.

(** ** Re-declaration and disconnect of a confirmed pair *)

(** C6: for every confirmed pair of connections A and B, a repeated
    declaration of the identical (a,b,k) by A yields the confirmed outcome
    again ("SESSION_UP" to both) and leaves both records mutually linked: A's
    record still references B's connection, B's record still references A's
    connection, and the keys are equal. *)
Theorem redeclaration_keeps_link s A B a b k :
  reachable s → confirmed_pair s A B a b k →
  sent (onmessage A (declaration a b k) s) = [(A, "SESSION_UP"); (B, "SESSION_UP")] ∧
  confirmed_pair (table (onmessage A (declaration a b k) s)) A B a b k.
Proof.
  intros Hs Hpair. apply reachable_WF in Hs as Hwf.
  destruct (confirmed_pair_facts s A B a b k Hwf Hpair) as [Hab HAB].
  destruct Hpair as [HA HB].
  destruct (onmessage_declaration A a b k s Hwf) as [Hmem Hsent].
  rewrite cleanup_id in Hmem, Hsent.
  2,3: intros y Hy [Hid [Hn|Hn]];
       assert (y = mkSession (wsID A) a b k (Some k) (Some A) (Some B)) as ->
         by (by eapply WF_same_ID); by apply Hn.
  assert (partner a b s = Some (mkSession (wsID B) b a k (Some k) (Some B) (Some A))) as Hp.
  { apply partner_Some; [apply Hwf|done|by split|]. intros [Hc _]. by apply Hab. }
  split.
  - rewrite Hsent. unfold notices. rewrite Hp. simpl. by rewrite decide_True.
  - split; apply Hmem.
    + left. by rewrite Hp.
    + right; left. eexists. split; [done|]. done.
Qed.

Lemma redeclaration_keeps_link_witness :
  reachable paired ∧ confirmed_pair paired wsA wsB "a" "b" "k" ∧
  sent (onmessage wsA (declaration "a" "b" "k") paired)
    = [(wsA, "SESSION_UP"); (wsB, "SESSION_UP")] ∧
  confirmed_pair (table (onmessage wsA (declaration "a" "b" "k") paired)) wsA wsB "a" "b" "k".
Proof.
  split_and!; [apply reachable_paired|apply confirmed_paired|..];
    apply (redeclaration_keeps_link paired wsA wsB "a" "b" "k"
             reachable_paired confirmed_paired).
Defined.

Lemma clearFromTargetID_partner id s r :
  WF s → r ∈ s → has_target id r →
  (updateSessionClearTargetInfoFromTargetID id s).2 = clientWS r.
Proof.
  intros Hwf Hr Ht. unfold updateSessionClearTargetInfoFromTargetID.
  destruct (list_find_elem_of (has_target id) s r) as [[i x] Hfind]; [done..|].
  rewrite Hfind. simpl. apply list_find_Some in Hfind as (Hx & Hxt & _).
  f_equal. eapply WF_pointer_unique; eauto using list_elem_of_lookup_2.
Qed.

Lemma onclose_sent ws s :
  sent (onclose ws s) =
    match (updateSessionClearTargetInfoFromTargetID (wsID ws) s).2 with
    | Some p => [(p, "SESSION_NOT_UP: -1")]
    | None => []
    end.
Proof.
  unfold onclose. by destruct (updateSessionClearTargetInfoFromTargetID (wsID ws) s).
Qed.

(** C5: for every confirmed pair of connections A and B, when B disconnects,
    A's record has its targetKey and targetConnection cleared, A's connection
    is sent exactly the text "SESSION_NOT_UP: -1", and the record owned by B
    is removed from the table. *)
Theorem disconnect_cascade s A B a b k :
  reachable s → confirmed_pair s A B a b k →
  mkSession (wsID A) a b k None (Some A) None ∈ table (onclose B s) ∧
  (∀ r, r ∈ table (onclose B s) → ID r = wsID A →
        targetKey r = None ∧ targetWS r = None) ∧
  sent (onclose B s) = [(A, "SESSION_NOT_UP: -1")] ∧
  no_record (table (onclose B s)) B.
Proof.
  intros Hs Hpair. apply reachable_WF in Hs as Hwf.
  destruct (confirmed_pair_facts s A B a b k Hwf Hpair) as [Hab HAB].
  destruct Hpair as [HA HB].
  pose proof (onclose_WF B s Hwf) as Hwf'.
  assert (mkSession (wsID A) a b k None (Some A) None ∈ table (onclose B s)) as HA'.
  { apply onclose_members; [done|]. eexists. split_and!; [exact HA|done|].
    unfold dropLink. by rewrite decide_True. }
  split_and!.
  - done.
  - intros r Hr Hid.
    by rewrite (WF_same_ID _ r _ Hwf' Hr HA' Hid).
  - rewrite onclose_sent.
    by rewrite (clearFromTargetID_partner _ s _ Hwf HA).
  - intros x (y & Hy & Hne & ->)%onclose_members; [|done].
    unfold dropLink. by case_decide.
Qed.

Lemma disconnect_cascade_witness :
  reachable paired ∧ confirmed_pair paired wsA wsB "a" "b" "k" ∧
  mkSession (wsID wsA) "a" "b" "k" None (Some wsA) None ∈ table (onclose wsB paired) ∧
  (∀ r, r ∈ table (onclose wsB paired) → ID r = wsID wsA →
        targetKey r = None ∧ targetWS r = None) ∧
  sent (onclose wsB paired) = [(wsA, "SESSION_NOT_UP: -1")] ∧
  no_record (table (onclose wsB paired)) wsB.
Proof.
  split_and!; [apply reachable_paired|apply confirmed_paired|..];
    apply (disconnect_cascade paired wsA wsB "a" "b" "k"
             reachable_paired confirmed_paired).
Defined.

(** ** Relay *)

Lemma getTargetWSFromSession_recordOf ws s :
  getTargetWSFromSession ws s =
    match recordOf ws s with
    | Some r =>
        if decide (Some (clientKey r) = targetKey r) then TargetWS (targetWS r)
        else TargetNum (-2)
    | None => TargetNum (-1)
    end.
Proof.
  unfold getTargetWSFromSession, recordOf.
  by destruct (list_find _ s) as [[i r]|].
Qed.

(** C7: for every state of the session table and every connection C, a relay
    command from C when C owns no record, or when C's record has clientKey
    different from targetKey or no targetConnection, performs no send to any
    connection and leaves every record of the session table unchanged. *)
Theorem dangling_relay_inert s C command :
  recordOf C s = None ∨
  (∃ r, recordOf C s = Some r ∧ (Some (clientKey r) ≠ targetKey r ∨ targetWS r = None)) →
  sent (onmessage C (COMMAND command) s) = [] ∧
  table (onmessage C (COMMAND command) s) = s.
Proof.
  intros Hrec. simpl. split; [|apply processCommand_table].
  unfold processCommand. rewrite getTargetWSFromSession_recordOf.
  destruct Hrec as [->|(r & -> & [Hk|Ht])]; [done| |].
  - by rewrite decide_False.
  - case_decide; [|done]. by rewrite Ht.
Qed.

Lemma dangling_relay_inert_witness :
  (recordOf wsD paired = None ∨
   (∃ r, recordOf wsD paired = Some r ∧
         (Some (clientKey r) ≠ targetKey r ∨ targetWS r = None))) ∧
  sent (onmessage wsD (COMMAND "ping") paired) = [] ∧
  table (onmessage wsD (COMMAND "ping") paired) = paired.
Proof.
  assert (recordOf wsD paired = None ∨
          (∃ r, recordOf wsD paired = Some r ∧
                (Some (clientKey r) ≠ targetKey r ∨ targetWS r = None))) as H
    by (left; vm_compute; reflexivity).
  split; [exact H|]. exact (dangling_relay_inert paired wsD "ping" H).
Defined.

(** C10: in every state reachable from the empty table, every session record
    whose clientKey equals its targetKey has a non-null targetWS; hence the
    relay lookup returns either an error number (-1 or -2) or a non-null
    partner connection, and the relay dispatch never invokes send on a null
    target. *)
Theorem relay_target_never_null s :
  reachable s →
  (∀ r, r ∈ s → Some (clientKey r) = targetKey r → targetWS r ≠ None) ∧
  (∀ ws, getTargetWSFromSession ws s = TargetNum (-1) ∨
         getTargetWSFromSession ws s = TargetNum (-2) ∨
         ∃ w, getTargetWSFromSession ws s = TargetWS (Some w)) ∧
  (∀ ws command, threw (processCommand ws command s) = false).
Proof.
  intros Hwf%reachable_WF. split_and!.
  - intros r. by apply WF_keys_target.
  - intros ws. by apply WF_lookup.
  - intros ws command. by apply WF_processCommand_threw.
Qed.

Lemma relay_target_never_null_witness :
  reachable paired ∧
  (∀ r, r ∈ paired → Some (clientKey r) = targetKey r → targetWS r ≠ None) ∧
  (∀ ws, getTargetWSFromSession ws paired = TargetNum (-1) ∨
         getTargetWSFromSession ws paired = TargetNum (-2) ∨
         ∃ w, getTargetWSFromSession ws paired = TargetWS (Some w)) ∧
  (∀ ws command, threw (processCommand ws command paired) = false).
Proof.
  split; [apply reachable_paired|]. exact (relay_target_never_null paired reachable_paired).
Defined.

(** ** One record per connection *)

(** C8: in every state reachable by any sequence of declarations, relays and
    disconnects starting from the empty table, each connection identity owns
    at most one session record: no two records in the table have the same
    id. *)
Theorem one_record_per_connection s i j x y :
  reachable s → s !! i = Some x → s !! j = Some y → ID x = ID y → i = j.
Proof. intros Hwf%reachable_WF. apply (keyed_lookup ID), Hwf. Qed.

Lemma one_record_per_connection_witness :
  reachable paired ∧
  paired !! 0 = Some (mkSession 1 "a" "b" "k" (Some "k") (Some wsA) (Some wsB)) ∧
  0 = 0.
Proof.
  assert (paired !! 0 = Some (mkSession 1 "a" "b" "k" (Some "k") (Some wsA) (Some wsB)))
    as H by (vm_compute; reflexivity).
  split_and!; [apply reachable_paired|exact H|].
  exact (one_record_per_connection paired 0 0 _ _ reachable_paired H H eq_refl).
Defined.

(** ** The forward record *)

Lemma reachable_pending : reachable pending.
Proof. apply reachable_run_from. constructor. Qed.

(** C9, as stated, fails: after [wsA] has declared [("a","b")], the forward
    record that the same declaration from another socket [wsD] finds is the
    record of [wsA]. *)
Lemma forward_record_of_another_socket :
  reachable pending ∧
  ∃ r, forward_record wsD "a" "b" pending = Some r ∧
       ID r ≠ wsID wsD ∧ clientWS r ≠ Some wsD.
Proof.
  split; [apply reachable_pending|].
  exists (mkSession 1 "a" "b" "k" None (Some wsA) None).
  split_and!; [by vm_compute|by vm_compute|]. intros [=].
Qed.

(** C9, as amended: in every reachable state, when a connection C declares
    (clientID, targetID) and a forward record matching that pair is present in
    the table, that forward record is the only record of the table with that
    pair; it is C's own prior declaration when C owns a record of that pair,
    and otherwise it belongs to another connection; in both cases the
    declaration rewrites it, so that afterwards its id and clientConnection
    equal C. *)
Theorem forward_record_taken_over s C cid tid k r :
  reachable s → forward_record C cid tid s = Some r →
  (∀ r', r' ∈ (scan C cid tid s).1 → fwd cid tid r' → r' = r) ∧
  (∀ r0, r0 ∈ s → ID r0 = wsID C → fwd cid tid r0 → r0 = r) ∧
  ∃ ci x, (scan C cid tid s).2.1 = Some ci ∧
          (updateSessionTable C (Some cid) (Some tid) (Some k) s).1 !! ci = Some x ∧
          ID x = wsID C ∧ clientWS x = Some C ∧ pairOf x = pairOf r.
Proof.
  intros Hwf%reachable_WF. unfold forward_record.
  destruct (scan C cid tid s) as [s1 [[ci|] ti]] eqn:Hscan; [|done]. intros Hr.
  cbn [fst snd]. unfold scan in Hscan.
  pose proof (scan_found _ _ _ _ _ _ Hscan) as [Hc Ht]. simpl in Hc, Ht.
  destruct Hc as (rf & Hrf & Hf). assert (rf = r) as -> by congruence.
  pose proof (scan_cleanup _ _ _ _ _ _ (wf_ids s Hwf) Hscan) as Hs1.
  pose proof (cleanup_WF C cid tid s Hwf) as Hwf1. rewrite <- Hs1 in Hwf1.
  assert (Huniq : ∀ r', r' ∈ s1 → fwd cid tid r' → r' = r).
  { intros r' Hr' Hf'. eapply WF_same_pair; eauto using list_elem_of_lookup_2.
    apply fwd_iff in Hf, Hf'. congruence. }
  split_and!; [done| |].
  - intros r0 Hr0 Hid Hf0. apply Huniq; [|done].
    rewrite Hs1, cleanup_id; [done|]. intros y Hy [Hyid [Hn|Hn]];
      assert (y = r0) as -> by (apply (WF_same_ID s); [done..|congruence]);
      destruct Hf0; by apply Hn.
  - pose proof (lookup_lt_Some _ _ _ Hr) as Hlt. apply fwd_iff in Hf.
    pose proof (updateSessionTable_settle _ _ _ k _ _ _ Hscan) as Hupd.
    exists ci. destruct ti as [ti|]; unfold settle in Hupd.
    + destruct Ht as (rt & Hrt & Hrv & Hnf). rewrite Hrt in Hupd.
      assert (ci ≠ ti) by (intros ->; rewrite Hrt in Hr; injection Hr as ->;
                           by apply Hnf, fwd_iff).
      exists (own C cid tid k (Some (clientKey rt)) (clientWS rt)).
      rewrite Hupd. simpl.
      rewrite list_lookup_insert_ne, list_lookup_insert_eq by done.
      by rewrite Hf.
    + exists (own C cid tid k None None). rewrite Hupd. simpl.
      rewrite list_lookup_insert_eq by done. by rewrite Hf.
Qed.

Lemma forward_record_taken_over_witness :
  reachable pending ∧
  forward_record wsD "a" "b" pending = Some (mkSession 1 "a" "b" "k" None (Some wsA) None) ∧
  ∃ ci x, (scan wsD "a" "b" pending).2.1 = Some ci ∧
          (updateSessionTable wsD (Some "a") (Some "b") (Some "j") pending).1 !! ci = Some x ∧
          ID x = wsID wsD ∧ clientWS x = Some wsD ∧
          pairOf x = pairOf (mkSession 1 "a" "b" "k" None (Some wsA) None).
Proof.
  assert (forward_record wsD "a" "b" pending
          = Some (mkSession 1 "a" "b" "k" None (Some wsA) None)) as H
    by (vm_compute; reflexivity).
  split_and!; [apply reachable_pending|exact H|].
  apply (forward_record_taken_over pending wsD "a" "b" "j" _ reachable_pending H).
Defined.

(** ** Where the code departs from the documented behaviour *)

(** C2: a declaration with an absent field makes [updateSessionTable] return
    the bare number [-100], whose [result] field reads [undefined]: the
    declaring connection is sent "SESSION_NOT_UP: undefined", not
    "SESSION_NOT_UP: -100"; nothing else is sent and the table is left as it
    was. *)
Theorem invalid_declaration_text s C client target key :
  client = None ∨ target = None ∨ key = None →
  onmessage C (SESSION client target key) s
    = mkRun s [(C, "SESSION_NOT_UP: undefined")] false.
Proof.
  intros Habs. unfold onmessage.
  assert (updateSessionTable C client target key s = (s, Some (RetNumber (-100)))) as ->;
    [|done].
  unfold updateSessionTable.
  destruct client, target, key; try done; destruct Habs as [?|[?|?]]; done.
Qed.

Lemma invalid_declaration_text_witness :
  (@None string = None ∨ Some "b" = @None string ∨ Some "k" = @None string) ∧
  onmessage wsA (SESSION None (Some "b") (Some "k")) []
    = mkRun [] [(wsA, "SESSION_NOT_UP: undefined")] false.
Proof.
  assert (@None string = None ∨ Some "b" = @None string ∨ Some "k" = @None string) as H
    by (left; reflexivity).
  split; [exact H|].
  exact (invalid_declaration_text [] wsA None (Some "b") (Some "k") H).
Defined.

(** C1: for every confirmed pair of connections A and B, when A then
    declares (a,c,k) with c different from b, B's record has its targetKey and
    targetConnection cleared and no record owned by A with pair (a,b) remains,
    but B's connection is sent nothing: the handler answers the declaring
    connection and the owner of a record of the reversed pair (c,a), which B
    is not. *)
Theorem identity_change_partner_not_notified s A B a b c k :
  reachable s → confirmed_pair s A B a b k → c ≠ b →
  mkSession (wsID B) b a k None (Some B) None ∈ table (onmessage A (declaration a c k) s) ∧
  (∀ x, x ∈ table (onmessage A (declaration a c k) s) →
        ID x = wsID A → pairOf x ≠ (a, b)) ∧
  (∀ w text, (w, text) ∈ sent (onmessage A (declaration a c k) s) → wsID w ≠ wsID B).
Proof.
  intros Hs Hpair Hcb. apply reachable_WF in Hs as Hwf.
  destruct (confirmed_pair_facts s A B a b k Hwf Hpair) as [Hab HAB].
  destruct Hpair as [HA HB].
  set (rA := mkSession (wsID A) a b k (Some k) (Some A) (Some B)) in *.
  set (rB := mkSession (wsID B) b a k (Some k) (Some B) (Some A)) in *.
  destruct (onmessage_declaration A a c k s Hwf) as [Hmem Hsent].
  pose proof (cleanup_WF A a c s Hwf) as Hwf1.
  set (s1 := cleanup A a c s) in *.
  assert (Hs1 : ∀ x, x ∈ s1 ↔ ∃ y, y ∈ s ∧ ID y ≠ wsID A ∧ x = clearFor rA y).
  { intros x. unfold s1.
    destruct (cleanup_cases A a c s) as [[_ Hns]|(j & r & Hj & [Hid Hst] & ->)].
    - destruct (Hns rA HA). split; [done|]. by right.
    - assert (r = rA) as ->
        by (apply (WF_same_ID s); eauto using list_elem_of_lookup_2).
      apply splice_members; [apply Hwf|done]. }
  assert (HB1 : clearTarget rB ∈ s1).
  { apply Hs1. exists rB. split_and!; [done|by intros ?|].
    unfold clearFor. simpl. by rewrite decide_True. }
  assert (HnA : ∀ x, x ∈ s1 → ID x ≠ wsID A).
  { intros x (y & _ & Hne & ->)%Hs1. by rewrite ID_clearFor. }
  split_and!.
  - apply Hmem. right; right. split_and!; [done| |].
    + intros [Hc _]. simpl in Hc. by apply Hab.
    + intros [Hc _]. simpl in Hc. by apply Hcb.
  - intros x [->|[(rt & Hp & ->)|(Hx & _)]]%Hmem Hid.
    + unfold pairOf. simpl. intros [= ?]. by apply Hcb.
    + apply partner_Some_inv in Hp as [Hin _]. by destruct (HnA rt Hin).
    + by destruct (HnA x Hx).
  - intros w text Hin. rewrite Hsent in Hin. unfold notices in Hin.
    destruct (partner a c s1) as [rt|] eqn:Hp.
    + apply partner_Some_inv in Hp as (Hrt & [Hr1 Hr2] & _).
      apply elem_of_cons in Hin as [[= -> _]|Hin]; [done|].
      destruct (record_ok_client rt) as (w' & Hw' & Hid'); [by eapply WF_record|].
      rewrite Hw' in Hin. apply list_elem_of_singleton in Hin as [= -> _].
      rewrite Hid'. intros Heq.
      assert (rt = clearTarget rB) as -> by (by apply (WF_same_ID s1)).
      simpl in Hr1. by apply Hcb.
    + apply list_elem_of_singleton in Hin as [= -> _]. done.
Qed.

Lemma identity_change_partner_not_notified_witness :
  reachable paired ∧ confirmed_pair paired wsA wsB "a" "b" "k" ∧ "c" ≠ "b" ∧
  sent (onmessage wsA (declaration "a" "c" "k") paired) = [(wsA, "SESSION_NOT_UP: -1")] ∧
  (∀ w text, (w, text) ∈ sent (onmessage wsA (declaration "a" "c" "k") paired) →
             wsID w ≠ wsID wsB).
Proof.
  assert ("c" ≠ "b") as H by discriminate.
  split_and!; [apply reachable_paired|apply confirmed_paired|exact H|by vm_compute|].
  apply (identity_change_partner_not_notified paired wsA wsB "a" "b" "c" "k"
           reachable_paired confirmed_paired H).
Defined.

(** * Further properties of the session manager *)

(** ** Invariants of reachable tables *)

(** X1: in every reachable table no two records declare the same
    (clientID, targetID) pair. *)
Theorem declared_pairs_unique s i j x y :
  reachable s → s !! i = Some x → s !! j = Some y →
  clientID x = clientID y → targetID x = targetID y → i = j.
Proof.
  intros Hwf%reachable_WF Hx Hy Hc Ht.
  apply (keyed_lookup pairOf s i j x y); [apply Hwf|done..|].
  unfold pairOf. congruence.
Qed.

Lemma declared_pairs_unique_witness :
  reachable paired ∧
  paired !! 1 = Some (mkSession 2 "b" "a" "k" (Some "k") (Some wsB) (Some wsA)) ∧
  1 = 1.
Proof.
  assert (paired !! 1 = Some (mkSession 2 "b" "a" "k" (Some "k") (Some wsB) (Some wsA)))
    as H by (vm_compute; reflexivity).
  split_and!; [apply reachable_paired|exact H|].
  exact (declared_pairs_unique paired 1 1 _ _ reachable_paired H H eq_refl eq_refl).
Defined.

(** X2: in every reachable table each record's client socket is there and
    carries the record's ID, and the record's target key and target socket
    are null together. *)
Theorem records_well_formed s r :
  reachable s → r ∈ s →
  (∃ w, clientWS r = Some w ∧ wsID w = ID r) ∧
  (targetKey r = None ↔ targetWS r = None).
Proof.
  intros Hwf%reachable_WF Hr. pose proof (WF_record s r Hwf Hr) as Hok.
  split; [by apply record_ok_client|apply Hok].
Qed.

Lemma records_well_formed_witness :
  reachable pending ∧ mkSession 1 "a" "b" "k" None (Some wsA) None ∈ pending ∧
  (∃ w, Some wsA = Some w ∧ wsID w = 1%Z) ∧ (@None string = None ↔ @None WebSocket = None).
Proof.
  assert (mkSession 1 "a" "b" "k" None (Some wsA) None ∈ pending) as H
    by (vm_compute; left).
  split_and!; [apply reachable_pending|exact H|..];
    apply (records_well_formed pending _ reachable_pending H).
Defined.

(** *** The two sides of a link agree on key and socket *)

Lemma splice_partner_kept s j r y w y' :
  WF s → s !! j = Some r → y ∈ s → ID y ≠ ID r →
  targetWS (clearFor r y) = Some w → y' ∈ s → ID y' = wsID w →
  clearFor r y = y ∧ y' ∈ delete j (clearFor r <$> s).
Proof.
  intros Hwf Hj Hy Hne Hw Hy' Hid'.
  pose proof (list_elem_of_lookup_2 _ _ _ Hj) as Hr.
  apply clearFor_target in Hw as Hkeep. destruct Hkeep as [Hxy Hnc].
  rewrite Hxy in Hw. split; [done|].
  destruct (WF_back s y w y' Hwf Hy Hw Hy' Hid') as (_ & _ & Hback).
  apply splice_members; [apply Hwf|done|]. exists y'.
  assert (ID y' ≠ ID r) as Hne'.
  { intros Heq. assert (y' = r) as -> by (by apply (WF_same_ID s)).
    unfold has_target in Hback. destruct (targetWS r) as [tw|] eqn:Htw; [|done].
    by destruct (Hnc tw). }
  split_and!; [done..|]. symmetry. apply clearFor_other.
  intros tw Htw Heq.
  destruct (WF_back s r tw y' Hwf Hr Htw Hy' Heq) as (_ & _ & Hback').
  unfold has_target in Hback, Hback'.
  destruct (targetWS y'); [congruence|done].
Qed.

Lemma cleanup_keys_agree ws cid tid s :
  WF s → keys_agree s → keys_agree (cleanup ws cid tid s).
Proof.
  intros Hwf Hka.
  destruct (cleanup_cases ws cid tid s) as [[-> _]|(j & r & Hj & Hst & ->)]; [done|].
  intros x w (y & Hy & Hne & ->)%splice_members Hw; [|apply Hwf|done].
  apply clearFor_target in Hw as Hkeep. destruct Hkeep as [Hxy _].
  assert (targetWS y = Some w) as Hw' by (by rewrite Hxy in Hw).
  destruct (Hka y w Hy Hw') as (y' & Hy' & Hid' & Hk' & Hc').
  destruct (splice_partner_kept s j r y w y' Hwf Hj Hy Hne Hw Hy' Hid') as [_ Hin].
  exists y'. rewrite Hxy. done.
Qed.

Lemma declared_keys_agree ws cid tid k s1 s' :
  WF s1 → keys_agree s1 → (∀ x, x ∈ s' ↔ declared ws cid tid k s1 x) →
  keys_agree s'.
Proof.
  intros Hwf Hka Hmem x w [->|[(rt & Hp & ->)|(Hx & Hxf & Hxr)]]%Hmem Hw.
  - simpl in Hw. destruct (partner cid tid s1) as [rt|] eqn:Hp; [|done].
    simpl in Hw. exists (relink k ws rt). split; [apply Hmem; right; left; eauto|].
    apply partner_Some_inv in Hp as [Hin _].
    destruct (record_ok_client rt) as (w' & Hw' & Hid'); [by eapply WF_record|].
    assert (w' = w) as -> by congruence. done.
  - simpl in Hw. injection Hw as <-.
    eexists. split; [apply Hmem; by left|]. by rewrite Hp.
  - destruct (Hka x w Hx Hw) as (x' & Hx' & Hid' & Hk' & Hc').
    destruct (WF_back s1 x w x' Hwf Hx Hw Hx' Hid') as (_ & [Hr1 Hr2] & _).
    exists x'. split; [|done]. apply Hmem. right; right. split_and!; [done| |].
    + intros [Hf1 Hf2]. apply Hxr. split; congruence.
    + intros [Hf1 Hf2]. apply Hxf. split; congruence.
Qed.

Lemma onclose_keys_agree ws s :
  WF s → keys_agree s → keys_agree (table (onclose ws s)).
Proof.
  intros Hwf Hka x w (y & Hy & Hne & ->)%onclose_members Hw; [|done].
  unfold dropLink in Hw |- *. case_decide as Hyt; [done|].
  destruct (Hka y w Hy Hw) as (y' & Hy' & Hid' & Hk' & Hc').
  destruct (WF_back s y w y' Hwf Hy Hw Hy' Hid') as (_ & _ & Hback).
  exists y'. split; [|done]. apply onclose_members; [done|].
  exists y'. split_and!; [done| |].
  - rewrite Hid'. intros Heq. apply Hyt. unfold has_target. by rewrite Hw.
  - unfold dropLink. rewrite decide_False; [done|]. intros Hyt'.
    unfold has_target in Hback, Hyt'. destruct (targetWS y'); [congruence|done].
Qed.

Lemma handle_keys_agree e s : WF s → keys_agree s → keys_agree (table (handle e s)).
Proof.
  intros Hwf Hka. destruct e as [ws data|ws]; [|by apply onclose_keys_agree].
  change (keys_agree (table (onmessage ws data s))).
  destruct data as [[cid|] [tid|] [k|]|command|];
    try (by rewrite onmessage_table).
  destruct (onmessage_declaration ws cid tid k s Hwf) as [Hmem _].
  eapply declared_keys_agree; [by apply cleanup_WF|by apply cleanup_keys_agree|done].
Qed.

Lemma reachable_keys_agree s : reachable s → keys_agree s.
Proof.
  induction 1 as [|s e Hs IH]; [by intros r w ?%elem_of_nil|].
  apply handle_keys_agree; [by apply reachable_WF|done].
Qed.

(** X3: in every reachable table links are mutual.  A record with a target
    socket declares two different identifiers; the target socket owns a
    record of the reversed pair, which points back at this record's owner,
    holds this record's client key as its target key, and has that very
    socket as its client. *)
Theorem links_are_mutual s r w :
  reachable s → r ∈ s → targetWS r = Some w →
  clientID r ≠ targetID r ∧
  ∃ r', r' ∈ s ∧ ID r' = wsID w ∧
        clientID r' = targetID r ∧ targetID r' = clientID r ∧
        (∃ w', targetWS r' = Some w' ∧ wsID w' = ID r) ∧
        targetKey r' = Some (clientKey r) ∧ clientWS r' = Some w.
Proof.
  intros Hs Hr Hw. pose proof (reachable_WF s Hs) as Hwf.
  destruct (reachable_keys_agree s Hs r w Hr Hw) as (r' & Hr' & Hid' & Hk' & Hc').
  destruct (WF_back s r w r' Hwf Hr Hw Hr' Hid') as (Hne & [Hr1 Hr2] & Hback).
  split; [done|]. exists r'. split_and!; try done.
  unfold has_target in Hback. destruct (targetWS r') as [w'|]; [eauto|done].
Qed.

Lemma links_are_mutual_witness :
  reachable paired ∧
  mkSession 1 "a" "b" "k" (Some "k") (Some wsA) (Some wsB) ∈ paired ∧
  "a" ≠ "b" ∧
  ∃ r', r' ∈ paired ∧ ID r' = wsID wsB ∧
        clientID r' = "b" ∧ targetID r' = "a" ∧
        (∃ w', targetWS r' = Some w' ∧ wsID w' = 1%Z) ∧
        targetKey r' = Some "k" ∧ clientWS r' = Some wsB.
Proof.
  assert (mkSession 1 "a" "b" "k" (Some "k") (Some wsA) (Some wsB) ∈ paired) as H
    by (vm_compute; left).
  split_and!; [apply reachable_paired|exact H|..];
    apply (links_are_mutual paired _ wsB reachable_paired H eq_refl).
Defined.

(** ** Relay *)

(** X4: in every reachable table a command is relayed only between two
    sockets that have declared the reversed pairs with the same key: when a
    command from C is sent at all, it is sent once, unchanged, on the client
    socket of the record that declares C's pair reversed and holds the same
    client key as C's record. *)
Theorem relay_only_between_agreed_sides s C command w text :
  reachable s → (w, text) ∈ sent (onmessage C (COMMAND command) s) →
  sent (onmessage C (COMMAND command) s) = [(w, command)] ∧
  ∃ r r', r ∈ s ∧ r' ∈ s ∧ ID r = wsID C ∧ clientWS r' = Some w ∧
          clientID r' = targetID r ∧ targetID r' = clientID r ∧
          clientKey r' = clientKey r.
Proof.
  intros Hs. pose proof (reachable_WF s Hs) as Hwf.
  pose proof (reachable_keys_agree s Hs) as Hka.
  change (onmessage C (COMMAND command) s) with (processCommand C command s).
  unfold processCommand, getTargetWSFromSession.
  destruct (list_find _ s) as [[i r]|] eqn:Hfind; [|by intros ?%elem_of_nil].
  apply list_find_Some in Hfind as (Hr%list_elem_of_lookup_2 & Hc & _).
  case_decide as Hk; [|by intros ?%elem_of_nil].
  destruct (targetWS r) as [w0|] eqn:Hw; [|by intros ?%elem_of_nil].
  simpl. intros [= -> ->]%list_elem_of_singleton. split; [done|].
  destruct (record_ok_client r) as (cw & Hcw & Hid); [by eapply WF_record|].
  unfold has_client in Hc. rewrite Hcw in Hc.
  destruct (Hka r w0 Hr Hw) as (r' & Hr' & Hid' & Hk' & Hc').
  destruct (WF_back s r w0 r' Hwf Hr Hw Hr' Hid') as (_ & [Hr1 Hr2] & Hback).
  exists r, r'. split_and!; try done; [congruence|].
  unfold has_target in Hback. destruct (targetWS r') as [w'|] eqn:Hw'; [|done].
  destruct (Hka r' w' Hr' Hw') as (r'' & Hr'' & Hid'' & Hk'' & _).
  assert (r'' = r) as -> by (apply (WF_same_ID s); [done..|congruence]).
  congruence.
Qed.

Lemma relay_only_between_agreed_sides_witness :
  reachable paired ∧ (wsB, "ping") ∈ sent (onmessage wsA (COMMAND "ping") paired) ∧
  sent (onmessage wsA (COMMAND "ping") paired) = [(wsB, "ping")].
Proof.
  assert ((wsB, "ping") ∈ sent (onmessage wsA (COMMAND "ping") paired)) as H
    by (vm_compute; left).
  split_and!; [apply reachable_paired|exact H|].
  apply (relay_only_between_agreed_sides paired wsA "ping" wsB "ping" reachable_paired H).
Defined.

(** X5: in every reachable table the relay lookup returns -1 exactly when the
    socket owns no record; when it owns a record whose target socket is null
    (a pending session) or whose target key differs from its client key, the
    lookup returns -2. *)
Theorem relay_lookup_codes s ws :
  reachable s →
  (getTargetWSFromSession ws s = TargetNum (-1) ↔ no_record s ws) ∧
  (∀ r, r ∈ s → ID r = wsID ws →
        targetWS r = None ∨ targetKey r ≠ Some (clientKey r) →
        getTargetWSFromSession ws s = TargetNum (-2)).
Proof.
  intros Hwf%reachable_WF. split.
  - split.
    + intros Hres r Hr Hid.
      rewrite (getTargetWSFromSession_own ws s r Hwf Hr Hid) in Hres.
      by case_decide.
    + intros Hnone. unfold getTargetWSFromSession.
      rewrite (proj2 (list_find_None _ s)); [done|].
      apply Forall_forall. intros r Hr Hc. apply (Hnone r Hr).
      destruct (record_ok_client r) as (w & Hw & <-); [by eapply WF_record|].
      unfold has_client in Hc. by rewrite Hw in Hc.
  - intros r Hr Hid Hcase.
    rewrite (getTargetWSFromSession_own ws s r Hwf Hr Hid).
    rewrite decide_False; [done|]. intros Hk. destruct Hcase as [Ht|Hne]; [|done].
    by destruct (WF_keys_target s r Hwf Hr Hk).
Qed.

Lemma relay_lookup_codes_witness :
  reachable pending ∧
  (getTargetWSFromSession wsB pending = TargetNum (-1) ↔ no_record pending wsB) ∧
  getTargetWSFromSession wsA pending = TargetNum (-2).
Proof.
  pose proof (relay_lookup_codes pending wsB reachable_pending) as [H1 _].
  pose proof (relay_lookup_codes pending wsA reachable_pending) as [_ H2].
  split_and!; [apply reachable_pending|exact H1|].
  apply (H2 (mkSession 1 "a" "b" "k" None (Some wsA) None));
    [vm_compute; left|reflexivity|by left].
Defined.

(** ** Handlers *)



(** X7: whatever the table, reachable or not, [updateSessionTable] with its
    three fields present returns an object whose clientWS is the declaring
    socket and whose result is -1 (with a null targetWS), 0 or -2: the indices
    it reads the table at are always in range. *)
Theorem updateSessionTable_returns_object ws cid tid k s :
  ∃ n tw,
    (updateSessionTable ws (Some cid) (Some tid) (Some k) s).2 = Some (RetObject n ws tw) ∧
    ((n = -1 ∧ tw = None) ∨ n = 0 ∨ n = -2)%Z.
Proof.
  destruct (locate (length s) ws cid tid s 0 (None, None)) as [s1 idx] eqn:Hloc.
  pose proof (scan_found _ _ _ _ _ _ Hloc) as [Hc Ht].
  rewrite (updateSessionTable_settle _ _ _ k _ _ _ Hloc).
  destruct idx as [[ci|] [ti|]]; simpl in *.
  - destruct Ht as (rt & -> & _). simpl. eexists _, _. split; [done|].
    case_decide; auto.
  - eexists _, _. split; [done|]. auto.
  - destruct Ht as (rt & -> & _). simpl. eexists _, _. split; [done|].
    case_decide; auto.
  - eexists _, _. split; [done|]. auto.
Qed.

(** ** The lookups by ID stop at the first match *)

Lemma list_find_middle {A} (P : A → Prop) `{!∀ x, Decision (P x)} (l1 l2 : list A) x :
  (∀ y, y ∈ l1 → ¬ P y) → P x → list_find P (l1 ++ x :: l2) = Some (length l1, x).
Proof.
  intros Hl1 Hx. apply list_find_Some. split_and!; [|done|].
  - by apply list_lookup_middle.
  - intros j y Hy Hj. rewrite lookup_app_l in Hy by done.
    apply Hl1. by eapply list_elem_of_lookup_2.
Qed.

(** X8: whatever the table, [deleteSessionFromID] splices out the first
    record with the given ID and nothing else: records after it stay, even
    those with the same ID. *)
Theorem deleteSessionFromID_first id l1 r l2 :
  (∀ x, x ∈ l1 → ID x ≠ id) → ID r = id →
  deleteSessionFromID id (l1 ++ r :: l2) = l1 ++ l2.
Proof.
  intros Hl1 Hr. unfold deleteSessionFromID.
  rewrite (list_find_middle (λ r, ID r = id)) by done.
  apply delete_middle.
Qed.

Lemma deleteSessionFromID_first_witness :
  (∀ x, x ∈ [mkSession 1 "a" "b" "k" None (Some wsA) None] → ID x ≠ 2%Z) ∧
  deleteSessionFromID 2
    ([mkSession 1 "a" "b" "k" None (Some wsA) None]
       ++ mkSession 2 "b" "c" "k" None (Some wsB) None
       :: [mkSession 2 "c" "d" "k" None (Some wsB) None])
    = [mkSession 1 "a" "b" "k" None (Some wsA) None]
        ++ [mkSession 2 "c" "d" "k" None (Some wsB) None].
Proof.
  assert (∀ x, x ∈ [mkSession 1 "a" "b" "k" None (Some wsA) None] → ID x ≠ 2%Z) as H
    by (intros x ->%list_elem_of_singleton; discriminate).
  split; [exact H|].
  exact (deleteSessionFromID_first 2 _ (mkSession 2 "b" "c" "k" None (Some wsB) None)
           _ H eq_refl).
Defined.

(** X9: whatever the table, [updateSessionClearTargetInfoFromTargetID] clears
    the target key and target socket of the first record whose target socket
    has the given ID, returns that record's client socket, and leaves every
    other record as it is, later records with the same target included. *)
Theorem clearFromTargetID_first id l1 r l2 :
  (∀ x, x ∈ l1 → ¬ has_target id x) → has_target id r →
  updateSessionClearTargetInfoFromTargetID id (l1 ++ r :: l2)
    = (l1 ++ clearTarget r :: l2, clientWS r).
Proof.
  intros Hl1 Hr. unfold updateSessionClearTargetInfoFromTargetID.
  rewrite (list_find_middle (has_target id)) by done.
  f_equal. replace (length l1) with (length l1 + 0) by lia.
  by rewrite insert_app_r.
Qed.

Lemma clearFromTargetID_first_witness :
  (∀ x, x ∈ [mkSession 2 "b" "a" "k" None (Some wsB) None] → ¬ has_target 2 x) ∧
  has_target 2 (mkSession 1 "a" "b" "k" (Some "k") (Some wsA) (Some wsB)) ∧
  updateSessionClearTargetInfoFromTargetID 2
    ([mkSession 2 "b" "a" "k" None (Some wsB) None]
       ++ mkSession 1 "a" "b" "k" (Some "k") (Some wsA) (Some wsB)
       :: [mkSession 3 "c" "b" "k" (Some "k") (Some wsD) (Some wsB)])
    = ([mkSession 2 "b" "a" "k" None (Some wsB) None]
         ++ mkSession 1 "a" "b" "k" None (Some wsA) None
         :: [mkSession 3 "c" "b" "k" (Some "k") (Some wsD) (Some wsB)],
       Some wsA).
Proof.
  assert (∀ x, x ∈ [mkSession 2 "b" "a" "k" None (Some wsB) None] → ¬ has_target 2 x)
    as H1 by (intros x ->%list_elem_of_singleton; by vm_compute).
  assert (has_target 2 (mkSession 1 "a" "b" "k" (Some "k") (Some wsA) (Some wsB)))
    as H2 by reflexivity.
  split_and!; [exact H1|exact H2|].
  exact (clearFromTargetID_first 2 _ _ _ H1 H2).
Defined.

(** ** Disconnects *)

Lemma elem_of_delete_other {A} (l : list A) i j x :
  l !! j = Some x → j ≠ i → x ∈ delete i l.
Proof.
  intros Hj Hne. apply list_elem_of_lookup.
  destruct (decide (j < i)).
  - exists j. by rewrite list_lookup_delete_lt.
  - exists (pred j). rewrite list_lookup_delete_ge by lia.
    by replace (S (pred j)) with j by lia.
Qed.

Lemma onclose_noop ws s :
  (∀ x, x ∈ s → ID x ≠ wsID ws ∧ ¬ has_target (wsID ws) x) →
  onclose ws s = mkRun s [] false.
Proof.
  intros Hfree. unfold onclose, updateSessionClearTargetInfoFromTargetID, deleteSessionFromID.
  rewrite (proj2 (list_find_None (has_target (wsID ws)) s))
    by (apply Forall_forall; intros x Hx; by apply Hfree).
  rewrite (proj2 (list_find_None (λ r, ID r = wsID ws) s))
    by (apply Forall_forall; intros x Hx; by apply Hfree).
  done.
Qed.

Lemma onclose_unreferenced ws s x :
  WF s → x ∈ table (onclose ws s) → ID x ≠ wsID ws ∧ ¬ has_target (wsID ws) x.
Proof.
  intros Hwf (y & Hy & Hne & ->)%onclose_members; [|done].
  unfold dropLink. case_decide; [|done]. split; [done|]. by intros ?.
Qed.

(** X10: on every reachable table a second disconnect of the same socket
    changes nothing and sends nothing. *)
Theorem disconnect_twice s ws :
  reachable s →
  onclose ws (table (onclose ws s)) = mkRun (table (onclose ws s)) [] false.
Proof.
  intros Hwf%reachable_WF. apply onclose_noop.
  intros x. by apply onclose_unreferenced.
Qed.

Lemma disconnect_twice_witness :
  reachable paired ∧
  onclose wsB (table (onclose wsB paired)) = mkRun (table (onclose wsB paired)) [] false.
Proof.
  split; [apply reachable_paired|]. exact (disconnect_twice paired wsB reachable_paired).
Defined.

(** X11: after a socket has disconnected from a reachable table, no record
    has its ID and no record has it as target socket, so no relayed command,
    from whichever socket, is sent on it. *)
Theorem disconnected_socket_unreferenced s ws :
  reachable s →
  (∀ x, x ∈ table (onclose ws s) → ID x ≠ wsID ws ∧ ¬ has_target (wsID ws) x) ∧
  (∀ C command w text,
     (w, text) ∈ sent (onmessage C (COMMAND command) (table (onclose ws s))) →
     wsID w ≠ wsID ws).
Proof.
  intros Hwf%reachable_WF.
  assert (Hfree := λ x, onclose_unreferenced ws s x Hwf).
  split; [done|]. intros C command w text.
  change (onmessage C (COMMAND command) (table (onclose ws s)))
    with (processCommand C command (table (onclose ws s))).
  unfold processCommand, getTargetWSFromSession.
  destruct (list_find _ _) as [[i r]|] eqn:Hfind; [|by intros ?%elem_of_nil].
  apply list_find_Some in Hfind as (Hr%list_elem_of_lookup_2 & _).
  case_decide; [|by intros ?%elem_of_nil].
  destruct (targetWS r) as [w0|] eqn:Hw; [|by intros ?%elem_of_nil].
  simpl. intros [= -> ->]%list_elem_of_singleton Heq.
  destruct (Hfree r Hr) as [_ Hnt]. apply Hnt. unfold has_target. by rewrite Hw.
Qed.

Lemma disconnected_socket_unreferenced_witness :
  reachable paired ∧
  (∀ x, x ∈ table (onclose wsB paired) → ID x ≠ wsID wsB ∧ ¬ has_target (wsID wsB) x).
Proof.
  split; [apply reachable_paired|].
  apply (disconnected_socket_unreferenced paired wsB reachable_paired).
Defined.

(** X12: whatever the table, a disconnect leaves in place every record that
    the socket does not own and that does not have it as target socket, and
    the only text it sends is "SESSION_NOT_UP: -1", at most once, on the
    client socket of a record that had the closing socket as target. *)
Theorem disconnect_frame s ws :
  (∀ r, r ∈ s → ID r ≠ wsID ws → ¬ has_target (wsID ws) r →
        r ∈ table (onclose ws s)) ∧
  (sent (onclose ws s) = [] ∨
   ∃ r w, r ∈ s ∧ has_target (wsID ws) r ∧ clientWS r = Some w ∧
          sent (onclose ws s) = [(w, "SESSION_NOT_UP: -1")]).
Proof.
  split.
  - intros r [j Hj]%list_elem_of_lookup Hid Hnt. unfold onclose.
    destruct (updateSessionClearTargetInfoFromTargetID (wsID ws) s) as [s1 p] eqn:Hs1.
    simpl. assert (s1 !! j = Some r) as Hj1.
    { unfold updateSessionClearTargetInfoFromTargetID in Hs1.
      destruct (list_find _ s) as [[i q]|] eqn:Hfind; injection Hs1 as <- <-; [|done].
      apply list_find_Some in Hfind as (Hq & Hqt & _).
      rewrite list_lookup_insert_ne; [done|]. intros ->. congruence. }
    unfold deleteSessionFromID.
    destruct (list_find _ s1) as [[i q]|] eqn:Hfind;
      [|by eapply list_elem_of_lookup_2].
    apply list_find_Some in Hfind as (Hq & Hqid & _).
    eapply elem_of_delete_other; [done|]. intros ->. congruence.
  - rewrite onclose_sent. unfold updateSessionClearTargetInfoFromTargetID.
    destruct (list_find _ s) as [[i q]|] eqn:Hfind; simpl; [|by left].
    apply list_find_Some in Hfind as (Hq%list_elem_of_lookup_2 & Hqt & _).
    destruct (clientWS q) as [w|] eqn:Hw; [|by left]. right. by exists q, w.
Qed.

(** ** Declarations *)

(** What the cleanup of the scan leaves of a record of another socket. *)
Lemma cleanup_image ws cid tid s y :
  WF s → y ∈ s → ID y ≠ wsID ws →
  ∃ x, x ∈ cleanup ws cid tid s ∧ ID x = ID y ∧ pairOf x = pairOf y ∧
       clientKey x = clientKey y ∧ clientWS x = clientWS y ∧
       (¬ has_target (wsID ws) y → x = y).
Proof.
  intros Hwf Hy Hne.
  destruct (cleanup_cases ws cid tid s) as [[-> _]|(j & r & Hj & [Hid _] & ->)].
  { exists y. by split_and!. }
  pose proof (list_elem_of_lookup_2 _ _ _ Hj) as Hr.
  exists (clearFor r y). split_and!.
  - apply splice_members; [apply Hwf|done|]. exists y. split_and!; [done| |done].
    congruence.
  - apply ID_clearFor.
  - apply pairOf_clearFor.
  - unfold clearFor. destruct (targetWS r); [|done]. by case_decide.
  - unfold clearFor. destruct (targetWS r); [|done]. by case_decide.
  - intros Hnt. apply clearFor_other. intros tw Htw Heq.
    destruct (WF_back s r tw y Hwf Hr Htw Hy Heq) as (_ & _ & Hback).
    apply Hnt. by rewrite <- Hid.
Qed.

(** X13: a declaration on a reachable table leaves in place every record of
    another pair (neither the declared one nor its reverse) that the
    declaring socket does not own and that does not have it as target
    socket. *)
Theorem declaration_frame s ws cid tid k r :
  reachable s → r ∈ s → ID r ≠ wsID ws → ¬ has_target (wsID ws) r →
  ¬ fwd cid tid r → ¬ rev cid tid r →
  r ∈ table (onmessage ws (declaration cid tid k) s).
Proof.
  intros Hwf%reachable_WF Hr Hid Hnt Hnf Hnr.
  destruct (onmessage_declaration ws cid tid k s Hwf) as [Hmem _].
  destruct (cleanup_image ws cid tid s r Hwf Hr Hid) as (x & Hx & _ & _ & _ & _ & Hsame).
  rewrite (Hsame Hnt) in Hx. apply Hmem. right; right. done.
Qed.

Lemma declaration_frame_witness :
  reachable paired ∧
  mkSession 2 "b" "a" "k" (Some "k") (Some wsB) (Some wsA) ∈ paired ∧
  mkSession 2 "b" "a" "k" (Some "k") (Some wsB) (Some wsA)
    ∈ table (onmessage wsD (declaration "c" "d" "k") paired).
Proof.
  assert (mkSession 2 "b" "a" "k" (Some "k") (Some wsB) (Some wsA) ∈ paired) as H
    by (vm_compute; right; left).
  split_and!; [apply reachable_paired|exact H|].
  apply (declaration_frame paired wsD "c" "d" "k" _ reachable_paired H).
  - vm_compute. discriminate.
  - vm_compute. discriminate.
  - intros [[=] _].
  - intros [[=] _].
Defined.

(** X14: on a reachable table the answer to a declaration (cid,tid,k) is
    decided by the record of the reversed pair.  When another socket owns a
    record declaring (tid,cid), with cid different from tid, the declaring
    socket and that record's client socket are both sent the same text:
    "SESSION_UP" when k equals that record's client key, and
    "SESSION_NOT_UP: -2" otherwise. *)
Theorem declaration_meets_reverse s ws cid tid k rt :
  reachable s → rt ∈ s → rev cid tid rt → cid ≠ tid → ID rt ≠ wsID ws →
  ∃ w, clientWS rt = Some w ∧
       sent (onmessage ws (declaration cid tid k) s) =
         (let text := if decide (k = clientKey rt) then "SESSION_UP"
                      else "SESSION_NOT_UP: -2" in
          [(ws, text); (w, text)]).
Proof.
  intros Hwf%reachable_WF Hrt Hrev Hne Hid.
  destruct (onmessage_declaration ws cid tid k s Hwf) as [_ Hsent].
  pose proof (cleanup_WF ws cid tid s Hwf) as Hwf1.
  destruct (cleanup_image ws cid tid s rt Hwf Hrt Hid)
    as (x & Hx & _ & Hp & Hk & Hc & _).
  destruct (record_ok_client rt) as (w & Hw & _); [by apply (WF_record s)|].
  exists w. split; [done|]. rewrite Hsent. unfold notices.
  rewrite (partner_Some cid tid _ x); [|apply Hwf1|done| |].
  - by rewrite Hk, Hc, Hw.
  - by eapply rev_pairOf.
  - intros Hf. apply (fwd_pairOf _ _ _ _ Hp) in Hf.
    destruct Hf as [Hf1 _], Hrev as [Hr1 _]. congruence.
Qed.

Lemma declaration_meets_reverse_witness :
  reachable pending ∧ mkSession 1 "a" "b" "k" None (Some wsA) None ∈ pending ∧
  "b" ≠ "a" ∧
  ∃ w, Some wsA = Some w ∧
       sent (onmessage wsB (declaration "b" "a" "j") pending) =
         [(wsB, "SESSION_NOT_UP: -2"); (w, "SESSION_NOT_UP: -2")].
Proof.
  assert (mkSession 1 "a" "b" "k" None (Some wsA) None ∈ pending) as H
    by (vm_compute; left).
  assert ("b" ≠ "a") as Hne by discriminate.
  split_and!; [apply reachable_pending|exact H|exact Hne|].
  apply (declaration_meets_reverse pending wsB "b" "a" "j" _ reachable_pending H);
    [by split|exact Hne|vm_compute; discriminate].
Defined.

(** X15: on a reachable table a declaration (cid,tid,k) is answered
    "SESSION_NOT_UP: -1", to the declaring socket alone, when no other socket
    owns a record of the reversed pair: every record declaring (tid,cid)
    either declares (cid,tid) as well (cid equals tid) or belongs to the
    declaring socket. *)
Theorem declaration_without_reverse s ws cid tid k :
  reachable s →
  (∀ r, r ∈ s → rev cid tid r → fwd cid tid r ∨ ID r = wsID ws) →
  sent (onmessage ws (declaration cid tid k) s) = [(ws, "SESSION_NOT_UP: -1")].
Proof.
  intros Hwf%reachable_WF Hnone.
  destruct (onmessage_declaration ws cid tid k s Hwf) as [_ Hsent].
  rewrite Hsent. unfold notices. rewrite partner_None; [done|].
  intros x Hx. destruct (decide (fwd cid tid x)) as [|Hnf]; [by left|]. right.
  intros Hr.
  destruct (cleanup_cases ws cid tid s) as [[Heq Hns]|(j & r & Hj & [Hid _] & Heq)];
    rewrite Heq in Hx.
  - destruct (Hnone x Hx Hr) as [|Hown]; [done|].
    apply (Hns x Hx). split; [done|]. unfold fwd in Hnf.
    destruct (decide (clientID x = cid)); [|by left].
    destruct (decide (targetID x = tid)); [|by right]. by destruct Hnf.
  - apply splice_members in Hx as (y & Hy & Hne & ->); [|apply Hwf|done].
    pose proof (pairOf_clearFor r y) as Hp.
    destruct (Hnone y Hy) as [Hf|Hown].
    + by eapply rev_pairOf.
    + apply Hnf. symmetry in Hp. by eapply fwd_pairOf.
    + congruence.
Qed.

Lemma declaration_without_reverse_witness :
  reachable paired ∧
  (∀ r, r ∈ paired → rev "c" "d" r → fwd "c" "d" r ∨ ID r = wsID wsD) ∧
  sent (onmessage wsD (declaration "c" "d" "k") paired) = [(wsD, "SESSION_NOT_UP: -1")].
Proof.
  assert (∀ r, r ∈ paired → rev "c" "d" r → fwd "c" "d" r ∨ ID r = wsID wsD) as H.
  { intros r Hr [Hc _]. vm_compute in Hr.
    apply elem_of_cons in Hr as [->|Hr]; [discriminate|].
    apply list_elem_of_singleton in Hr as ->. discriminate. }
  split_and!; [apply reachable_paired|exact H|].
  exact (declaration_without_reverse paired wsD "c" "d" "k" reachable_paired H).
Defined.

(** X16: on a reachable table a socket that declares a pair already declared
    by another socket evicts it without a word: the new socket owns the
    record of the pair afterwards, no record with the old owner's ID is left,
    and nothing is sent on a socket with the old owner's ID. *)
Theorem takeover_evicts_owner s D cid tid k rA :
  reachable s → rA ∈ s → fwd cid tid rA → ID rA ≠ wsID D →
  (∃ x, x ∈ table (onmessage D (declaration cid tid k) s) ∧
        ID x = wsID D ∧ clientWS x = Some D ∧ fwd cid tid x ∧ clientKey x = k) ∧
  (∀ x, x ∈ table (onmessage D (declaration cid tid k) s) → ID x ≠ ID rA) ∧
  (∀ w text, (w, text) ∈ sent (onmessage D (declaration cid tid k) s) →
             wsID w ≠ ID rA).
Proof.
  intros Hwf%reachable_WF HrA Hfwd Hid.
  destruct (onmessage_declaration D cid tid k s Hwf) as [Hmem Hsent].
  pose proof (cleanup_WF D cid tid s Hwf) as Hwf1.
  destruct (cleanup_image D cid tid s rA Hwf HrA Hid)
    as (a & Ha & Haid & Hap & _).
  assert (fwd cid tid a) as Haf by (symmetry in Hap; by eapply fwd_pairOf).
  assert (Hother : ∀ x, x ∈ cleanup D cid tid s → ¬ fwd cid tid x → ID x ≠ ID rA).
  { intros x Hx Hnf Heq. apply Hnf.
    assert (x = a) as -> by (apply (WF_same_ID _ _ _ Hwf1); [done..|congruence]).
    done. }
  split_and!.
  - eexists. split; [apply Hmem; by left|]. done.
  - intros x [->|[(rt & Hp & ->)|(Hx & Hxf & _)]]%Hmem.
    + simpl. congruence.
    + apply partner_Some_inv in Hp as (Hin & _ & Hnf). by apply (Hother rt).
    + by apply Hother.
  - intros w text Hin. rewrite Hsent in Hin. unfold notices in Hin.
    destruct (partner cid tid (cleanup D cid tid s)) as [rt|] eqn:Hp.
    + apply partner_Some_inv in Hp as (Hrt & _ & Hnf).
      apply elem_of_cons in Hin as [[= -> _]|Hin]; [congruence|].
      destruct (record_ok_client rt) as (w' & Hw' & Hid'); [by eapply WF_record|].
      rewrite Hw' in Hin. apply list_elem_of_singleton in Hin as [= -> _].
      rewrite Hid'. by apply (Hother rt).
    + apply list_elem_of_singleton in Hin as [= -> _]. congruence.
Qed.

Lemma takeover_evicts_owner_witness :
  reachable pending ∧ mkSession 1 "a" "b" "k" None (Some wsA) None ∈ pending ∧
  (∀ x, x ∈ table (onmessage wsD (declaration "a" "b" "j") pending) → ID x ≠ 1%Z) ∧
  (∀ w text, (w, text) ∈ sent (onmessage wsD (declaration "a" "b" "j") pending) →
             wsID w ≠ 1%Z).
Proof.
  assert (mkSession 1 "a" "b" "k" None (Some wsA) None ∈ pending) as H
    by (vm_compute; left).
  split_and!; [apply reachable_pending|exact H|..];
    apply (takeover_evicts_owner pending wsD "a" "b" "j" _ reachable_pending H);
    (by split) || (vm_compute; discriminate).
Defined.

(** *** Declaring twice *)

Lemma Run_ext r r' :
  table r = table r' → sent r = sent r' → threw r = threw r' → r = r'.
Proof. destruct r, r'. simpl. by intros -> -> ->. Qed.

Lemma declared_again ws cid tid k s s' :
  WF s → WF s' → (∀ x, x ∈ s' ↔ declared ws cid tid k (cleanup ws cid tid s) x) →
  (updateSessionTable ws (Some cid) (Some tid) (Some k) s').1 = s' ∧
  notices ws cid tid k (cleanup ws cid tid s') = notices ws cid tid k (cleanup ws cid tid s).
Proof.
  intros Hwf Hwf' Hmem. set (s1 := cleanup ws cid tid s) in *.
  set (new := own ws cid tid k (clientKey <$> partner cid tid s1)
                (partner cid tid s1 ≫= clientWS)) in *.
  assert (new ∈ s') as Hnew by (apply Hmem; by left).
  assert (fwd cid tid new) as Hnf by done.
  assert (cleanup ws cid tid s' = s') as Hclean.
  { apply cleanup_id. intros y Hy [Hid Hst].
    assert (y = new) as -> by (by apply (WF_same_ID s')).
    destruct Hst as [Hst|Hst]; by apply Hst. }
  destruct (updateSessionTable_spec ws cid tid k s') as (idx & [Hc Ht] & ->);
    [apply Hwf'..|].
  rewrite Hclean in *. clear Hclean.
  destruct idx as [[ci|] ti]; simpl in Hc, Ht; [|by destruct (Hc new Hnew)].
  destruct Hc as (rf & Hrf & Hf).
  assert (rf = new) as ->.
  { apply (WF_same_pair s'); [done|by eapply list_elem_of_lookup_2|done|].
    apply fwd_iff in Hf, Hnf. congruence. }
  destruct (partner cid tid s1) as [rt|] eqn:Hp.
  - pose proof (partner_Some_inv _ _ _ _ Hp) as (Hrt & Hrev & Hnfwd).
    assert (relink k ws rt ∈ s') as Hrl by (apply Hmem; right; left; eauto).
    assert (partner cid tid s' = Some (relink k ws rt)) as Hp'
      by (by apply partner_Some; [apply Hwf'|..]).
    split; [|unfold notices; by rewrite Hp', Hp].
    destruct ti as [ti|]; simpl.
    + destruct Ht as (rt' & Hrt' & Hrev' & Hnfwd').
      assert (rt' = relink k ws rt) as ->.
      { apply (WF_same_pair s'); [done|by eapply list_elem_of_lookup_2|done|].
        apply rev_iff in Hrev, Hrev'. unfold pairOf in *. simpl in *. congruence. }
      rewrite Hrt'. simpl.
      rewrite (list_insert_id s' ci) by done. by rewrite list_insert_id.
    + destruct (Ht _ Hrl); done.
  - assert (partner cid tid s' = None) as Hp'.
    { apply partner_None. intros x [->|[(rt & Hp2 & _)|(_ & _ & Hxr)]]%Hmem;
        [by left|congruence|by right]. }
    split; [|unfold notices; by rewrite Hp', Hp].
    destruct ti as [ti|]; simpl.
    + destruct Ht as (rt' & Hrt'%list_elem_of_lookup_2 & Hrev' & Hnfwd').
      apply Hmem in Hrt' as [->|[(rt & Hp2 & _)|(_ & _ & Hxr)]];
        [done|congruence|done].
    + by rewrite list_insert_id.
Qed.

(** X17: on a reachable table a declaration sent twice in a row has the
    effect of sending it once: the second one leaves the table exactly as the
    first one left it and makes the handler send the same texts on the same
    sockets. *)
Theorem declaration_twice s ws cid tid k :
  reachable s →
  onmessage ws (declaration cid tid k) (table (onmessage ws (declaration cid tid k) s))
    = onmessage ws (declaration cid tid k) s.
Proof.
  intros Hs. pose proof (reachable_WF s Hs) as Hwf.
  pose proof (onmessage_WF ws (declaration cid tid k) s Hwf) as Hwf'.
  destruct (onmessage_declaration ws cid tid k s Hwf) as [Hmem Hsent].
  destruct (onmessage_declaration ws cid tid k _ Hwf') as [_ Hsent'].
  destruct (declared_again ws cid tid k s _ Hwf Hwf' Hmem) as [Htab Hnot].
  apply Run_ext.
  - rewrite onmessage_table. exact Htab.
  - by rewrite Hsent', Hsent.
  - pose proof (WF_handle_threw (Receive ws (declaration cid tid k)) s Hwf) as H1.
    pose proof (WF_handle_threw (Receive ws (declaration cid tid k)) _ Hwf') as H2.
    change (handle (Receive ws ?d) ?t) with (onmessage ws d t) in H1, H2.
    by rewrite H1, H2.
Qed.

Lemma declaration_twice_witness :
  reachable pending ∧
  onmessage wsB (declaration "b" "a" "j")
      (table (onmessage wsB (declaration "b" "a" "j") pending))
    = onmessage wsB (declaration "b" "a" "j") pending.
Proof.
  split; [apply reachable_pending|].
  exact (declaration_twice pending wsB "b" "a" "j" reachable_pending).
Defined.

(** *** The size of the table *)

Lemma locate_length ws cid tid fuel s i idx :
  length (locate fuel ws cid tid s i idx).1 ≤ length s.
Proof.
  revert s i idx. induction fuel as [|fuel IH]; intros s i idx; simpl; [done|].
  destruct (s !! i) as [r|] eqn:Hr; [|done].
  pose proof (length_spliceStale i r s (lookup_lt_Some _ _ _ Hr)) as Hsp.
  case_decide.
  - destruct (spliceStale i r s !! i); simpl; [|lia].
    etrans; [apply IH|lia].
  - apply IH.
Qed.

Lemma settle_length ws cid tid k s1 idx :
  length s1 ≤ length (settle ws cid tid k s1 idx).1 ≤ S (length s1).
Proof.
  destruct idx as [[ci|] [ti|]]; simpl.
  - destruct (s1 !! ti); simpl; rewrite ?length_insert; lia.
  - rewrite length_insert. lia.
  - destruct (s1 !! ti); simpl; rewrite ?length_app, ?length_insert; simpl; lia.
  - rewrite length_app. simpl. lia.
Qed.

(** X18: a declaration adds at most one record to the table, whatever the
    table and whatever the fields; on a reachable table it also removes at
    most one. *)
Theorem declaration_table_size s ws client target key :
  length (updateSessionTable ws client target key s).1 ≤ S (length s) ∧
  (reachable s → length s ≤ S (length (updateSessionTable ws client target key s).1)).
Proof.
  destruct client as [cid|], target as [tid|], key as [k|];
    try (split; simpl; lia).
  destruct (locate (length s) ws cid tid s 0 (None, None)) as [s1 idx] eqn:Hloc.
  rewrite (updateSessionTable_settle _ _ _ k _ _ _ Hloc).
  pose proof (settle_length ws cid tid k s1 idx) as [Hlo Hhi].
  pose proof (locate_length ws cid tid (length s) s 0 (None, None)) as Hlen.
  rewrite Hloc in Hlen. simpl in Hlen. split; [lia|].
  intros Hwf%reachable_WF.
  pose proof (scan_cleanup _ _ _ _ _ _ (wf_ids s Hwf) Hloc) as ->.
  destruct (cleanup_cases ws cid tid s) as [[Heq _]|(j & r & Hj & _ & Heq)];
    rewrite Heq in *; [lia|].
  assert (S (length (delete j (clearFor r <$> s))) = length s); [|lia].
  rewrite <- spliceStale_clearFor. apply length_spliceStale. by eapply lookup_lt_Some.
Qed.

Lemma declaration_table_size_witness :
  reachable paired ∧
  length (updateSessionTable wsA (Some "a") (Some "c") (Some "k") paired).1
    ≤ S (length paired) ∧
  length paired
    ≤ S (length (updateSessionTable wsA (Some "a") (Some "c") (Some "k") paired).1).
Proof.
  pose proof (declaration_table_size paired wsA (Some "a") (Some "c") (Some "k"))
    as [H1 H2].
  split_and!; [apply reachable_paired|exact H1|exact (H2 reachable_paired)].
Defined.

(** ** The debug view *)

Lemma string_app_assoc (a b c : string) : (a +:+ b) +:+ c = a +:+ (b +:+ c).
Proof.
  induction a as [|x a IH]; [done|].
  change (String x ((a +:+ b) +:+ c) = String x (a +:+ (b +:+ c))). by f_equal.
Qed.

Lemma appendRow_owner res r w :
  clientWS r = Some w → wsID w = ID r → appendRow res r = Some (res +:+ rowText r).
Proof.
  intros Hc Hid. unfold appendRow, rowText. rewrite Hc, Hid. cbv zeta.
  f_equal. by rewrite !string_app_assoc.
Qed.

Lemma appendRow_None res r : appendRow res r = None ↔ clientWS r = None.
Proof. unfold appendRow. cbv zeta. by destruct (clientWS r). Qed.

Lemma forEach_None (s : list Session) :
  foldl (λ acc item, acc ≫= λ res, appendRow res item) None s = None.
Proof. by induction s. Qed.

Lemma forEach_throws s acc :
  foldl (λ acc item, acc ≫= λ res, appendRow res item) (Some acc) s = None
  ↔ ∃ r, r ∈ s ∧ clientWS r = None.
Proof.
  revert acc. induction s as [|r s IH]; intros acc; simpl.
  - split; [done|]. by intros (r & ?%elem_of_nil & _).
  - destruct (appendRow acc r) as [acc'|] eqn:Hrow.
    + rewrite IH. split.
      * intros (x & Hx & Hnull). exists x. split; [by right|done].
      * intros (x & [->|Hx]%elem_of_cons & Hnull); [|eauto].
        apply (appendRow_None acc) in Hnull. congruence.
    + rewrite forEach_None. split; [|done]. intros _.
      exists r. split; [by left|]. by apply (appendRow_None acc).
Qed.

(** X19: whatever the table, [getSessionTable] throws exactly when some
    record has a null client socket; it does not test [clientWS] before
    reading its ID. *)
Theorem getSessionTable_throws s :
  getSessionTable s = None ↔ ∃ r, r ∈ s ∧ clientWS r = None.
Proof.
  unfold getSessionTable. rewrite <- (forEach_throws s tableHeader).
  by destruct (foldl _ _ s).
Qed.

Lemma forEach_rows s acc tl :
  Forall record_ok s →
  match foldl (λ acc item, acc ≫= λ res, appendRow res item) (Some acc) s with
  | Some res => Some (res +:+ tl)
  | None => None
  end = Some (acc +:+ foldr (λ r rest, rowText r +:+ rest) tl s).
Proof.
  intros Hall. revert acc. induction Hall as [|r s Hr _ IH]; intros acc; simpl; [done|].
  destruct (record_ok_client r Hr) as (w & Hw & Hid).
  rewrite (appendRow_owner acc r w Hw Hid), IH. by rewrite string_app_assoc.
Qed.

(** X20: on every reachable table [getSessionTable] returns a text: the
    header, then one row per record in table order, then the closing tag; in
    each row the ID cell and the client WS cell show the same number. *)
Theorem getSessionTable_reachable s :
  reachable s →
  getSessionTable s
    = Some (tableHeader +:+ foldr (λ r rest, rowText r +:+ rest) "</table>" s).
Proof.
  intros Hwf%reachable_WF. unfold getSessionTable.
  apply forEach_rows, Hwf.
Qed.

Lemma getSessionTable_reachable_witness :
  reachable pending ∧
  getSessionTable pending
    = Some (tableHeader +:+
            "<tr><td>1</td><td>a</td><td>b</td><td>k</td><td>null</td><td>1</td><td>null</td></tr></table>").
Proof.
  split; [apply reachable_pending|].
  exact (getSessionTable_reachable pending reachable_pending).
Defined.

(** ** The scan on an arbitrary table *)

(** X21: whatever the table, when the scan of [updateSessionTable] is over
    its two indices are right for the table it leaves: [clientRecordIndex]
    designates a record of the declared pair, or is -1 and the table has
    none; [targetRecordIndex] designates a record of the reversed pair that
    is not of the declared pair, or is -1 and the table has none. *)
Theorem scan_indices ws cid tid s :
  found cid tid (scan ws cid tid s).1 (scan ws cid tid s).2.
Proof.
  unfold scan.
  destruct (locate (length s) ws cid tid s 0 (None, None)) as [s1 idx] eqn:Hloc.
  by eapply scan_found.
Qed.

Lemma spliceStale_below_ID i r s j :
  j < i → ID <$> (spliceStale i r s !! j) = ID <$> (s !! j).
Proof.
  intros Hj. rewrite spliceStale_clearFor, list_lookup_delete_lt, list_lookup_fmap by done.
  destruct (s !! j); simpl; [|done]. by rewrite ID_clearFor.
Qed.

(** The scan never splices below its index, and clearing keeps ID and pair. *)
Lemma locate_below ws cid tid fuel s j idx i :
  i < j →
  ID <$> ((locate fuel ws cid tid s j idx).1 !! i) = ID <$> (s !! i) ∧
  pairOf <$> ((locate fuel ws cid tid s j idx).1 !! i) = pairOf <$> (s !! i).
Proof.
  revert s j idx. induction fuel as [|fuel IH]; intros s j idx Hij; simpl; [done|].
  destruct (s !! j) as [r|] eqn:Hr; [|done].
  case_decide.
  - pose proof (spliceStale_below_ID j r s i Hij) as Hid.
    pose proof (spliceStale_below j r s i Hij) as Hp.
    destruct (spliceStale j r s !! j); simpl; [|done].
    destruct (IH (spliceStale j r s) (S j) (mark cid tid s0 j idx)) as [-> ->]; [lia|done].
  - apply IH. lia.
Qed.

Lemma locate_prefix ws cid tid s n fuel i idx :
  (∀ j r, i ≤ j < i + n → s !! j = Some r → ¬ stale ws cid tid r) →
  i + n ≤ length s →
  ∃ idx', locate (n + fuel) ws cid tid s i idx = locate fuel ws cid tid s (i + n) idx'.
Proof.
  revert i idx. induction n as [|n IH]; intros i idx Hns Hlen.
  - exists idx. by rewrite Nat.add_0_r.
  - simpl. destruct (s !! i) as [r|] eqn:Hr.
    2:{ apply lookup_ge_None_1 in Hr. lia. }
    rewrite decide_False by (eapply Hns; [|done]; lia).
    destruct (IH (S i) (mark cid tid r i idx)) as [idx' Heq].
    + intros j r' Hj. apply Hns. lia.
    + lia.
    + exists idx'. rewrite Heq. f_equal. lia.
Qed.

Lemma locate_splice ws cid tid fuel s i idx r r' :
  s !! i = Some r → stale ws cid tid r → spliceStale i r s !! i = Some r' →
  locate (S fuel) ws cid tid s i idx
    = locate fuel ws cid tid (spliceStale i r s) (S i) (mark cid tid r' i idx).
Proof. intros Hr Hst Hr'. simpl. by rewrite Hr, decide_True, Hr'. Qed.

(** X22: the scan does not test the record that slides into the place of
    a record it has spliced out.  Whatever the table, the record that follows
    the first stale record of the declaring socket is still in the table when
    the scan is over, with its ID and its pair, even when it is itself a
    stale record of that socket. *)
Theorem scan_skips_after_splice ws cid tid l1 r1 r2 l2 :
  (∀ x, x ∈ l1 → ¬ stale ws cid tid x) → stale ws cid tid r1 →
  ∃ x, (scan ws cid tid (l1 ++ r1 :: r2 :: l2)).1 !! length l1 = Some x ∧
       ID x = ID r2 ∧ pairOf x = pairOf r2.
Proof.
  intros Hl1 Hst. unfold scan. set (s := l1 ++ r1 :: r2 :: l2).
  assert (length s = length l1 + S (S (length l2))) as Hlen
    by (unfold s; rewrite length_app; simpl; lia).
  destruct (locate_prefix ws cid tid s (length l1) (S (S (length l2))) 0 (None, None))
    as [idx' Heq].
  { intros j r Hj Hr. apply Hl1. unfold s in Hr.
    rewrite lookup_app_l in Hr by lia. by eapply list_elem_of_lookup_2. }
  { lia. }
  rewrite Hlen, Heq. change (0 + length l1) with (length l1).
  assert (s !! length l1 = Some r1) as Hr1 by (by apply list_lookup_middle).
  assert (spliceStale (length l1) r1 s !! length l1 = Some (clearFor r1 r2)) as Hr2.
  { rewrite spliceStale_clearFor, list_lookup_delete_ge, list_lookup_fmap by lia.
    unfold s. rewrite lookup_app_r by lia.
    by replace (S (length l1) - length l1) with 1 by lia. }
  rewrite (locate_splice _ _ _ _ _ _ _ _ _ Hr1 Hst Hr2).
  destruct (locate_below ws cid tid (S (length l2)) (spliceStale (length l1) r1 s)
              (S (length l1)) (mark cid tid (clearFor r1 r2) (length l1) idx')
              (length l1)) as [Hid Hp]; [lia|].
  rewrite Hr2 in Hid, Hp.
  match goal with |- ∃ x, ?t = Some x ∧ _ => destruct t as [x|] eqn:Hx end;
    [|simpl in Hid; discriminate].
  exists x. split; [done|]. simpl in Hid, Hp.
  rewrite ID_clearFor in Hid. rewrite pairOf_clearFor in Hp.
  split; congruence.
Qed.

Lemma scan_skips_after_splice_witness :
  (∀ x, x ∈ @nil Session → ¬ stale wsA "a" "d" x) ∧
  stale wsA "a" "d" (mkSession 1 "a" "b" "k" None (Some wsA) None) ∧
  ∃ x, (scan wsA "a" "d"
          ([] ++ mkSession 1 "a" "b" "k" None (Some wsA) None
              :: mkSession 1 "a" "c" "k" None (Some wsA) None :: [])).1 !! 0 = Some x ∧
       ID x = 1%Z ∧ pairOf x = ("a", "c").
Proof.
  assert (∀ x, x ∈ @nil Session → ¬ stale wsA "a" "d" x) as H1
    by (by intros x ?%elem_of_nil).
  assert (stale wsA "a" "d" (mkSession 1 "a" "b" "k" None (Some wsA) None)) as H2
    by (split; [reflexivity|right; discriminate]).
  split_and!; [exact H1|exact H2|].
  exact (scan_skips_after_splice wsA "a" "d" [] _
           (mkSession 1 "a" "c" "k" None (Some wsA) None) [] H1 H2).
Defined.
